(** * numpyboxedprint: a shallow embedding of [parr] and its helpers

    The development follows [src/numpyboxedprint.py].  Python strings are
    sequences of Unicode code points ([len] counts code points, and the
    box-drawing characters are outside ASCII), so a string is a list of
    code points.  Python exceptions are an explicit [result]; the two
    observable effects of [parr] (calls to numpy's [array2string] and the
    final [print]) are recorded in a trace threaded by a small monad. *)

From Stdlib Require Import String Ascii DecimalString.
From Stdlib Require Import List ZArith NArith Lia Bool PeanoNat.
Import ListNotations.
Open Scope string_scope.
Open Scope list_scope.
Open Scope nat_scope.

Set Implicit Arguments.

(** ** Python strings *)

Module Py.

Definition char := N.
Definition str := list char.

(** An ASCII literal of the source. *)
Definition lit (s : string) : str :=
  map N_of_ascii (list_ascii_of_string s).

Definition space : char := 32%N.
Definition newline : char := 10%N.

(** [s * n] *)
Definition str_mul (s : str) (n : Z) : str :=
  concat (repeat s (Z.to_nat n)).

(** [s.ljust(w)] and [s.rjust(w)], padding with spaces *)
Definition ljust (s : str) (w : nat) : str :=
  s ++ repeat space (w - length s).

Definition rjust (s : str) (w : nat) : str :=
  repeat space (w - length s) ++ s.

(** [sep.join(items)] *)
Fixpoint join (sep : str) (items : list str) : str :=
  match items with
  | [] => []
  | [x] => x
  | x :: rest => x ++ sep ++ join sep rest
  end.

(** first index of a character, [s.find(c)] *)
Fixpoint find (c : char) (s : str) : option nat :=
  match s with
  | [] => None
  | x :: s' => if N.eqb x c then Some 0 else option_map S (find c s')
  end.

End Py.
Import Py.

(** ** Exceptions *)

Inductive exn :=
| TypeError | NotImplementedError | ValueError | IndexError | AttributeError.

Inductive result (A : Type) :=
| Ok (a : A)
| Raise (e : exn).
Arguments Raise {A} e.

Definition rbind {A B} (c : result A) (k : A -> result B) : result B :=
  match c with
  | Ok a => k a
  | Raise e => Raise e
  end.

Declare Scope result_scope.
Delimit Scope result_scope with res.
Notation "x <- c ;; k" := (rbind c (fun x => k))
  (at level 61, c at next level, right associativity) : result_scope.

(** A list comprehension whose body may raise: left to right, first
    exception wins. *)
Fixpoint rmap {A B} (f : A -> result B) (l : list A) : result (list B) :=
  match l with
  | [] => Ok []
  | x :: l' =>
      (y <- f x ;;
       ys <- rmap f l' ;;
       Ok (y :: ys))%res
  end.

(** [max(iterable)] on lengths: [ValueError] on an empty sequence *)
Definition py_max (l : list nat) : result nat :=
  match l with
  | [] => Raise ValueError
  | _ => Ok (list_max l)
  end.

(** the least of a list of lengths, 0 for no length at all *)
Definition list_min (l : list nat) : nat :=
  match l with
  | [] => 0
  | x :: l' => fold_right Nat.min x l'
  end.

(** [zip] over the unpacked rows: the tuples of corresponding elements,
    as many as the shortest row has; no tuple when there is no row. *)
Definition zip_star {A} (d : A) (rows : list (list A)) : list (list A) :=
  map (fun i => map (fun r => nth i r d) rows)
      (seq 0 (list_min (map (@length A) rows))).

(** ** numpy arrays *)

(** The scalar types of numpy, abstract classes included, and the class
    each one derives from. *)
Inductive np_type :=
| generic | bool_ | number | integer | signedinteger | unsignedinteger
| inexact | floating | complexfloating | flexible | character
| int8 | int16 | int32 | int64 | uint8 | uint16 | uint32 | uint64
| float16 | float32 | float64 | longdouble
| complex64 | complex128 | clongdouble
| timedelta64 | datetime64 | object_ | bytes_ | str_ | void.

Scheme Equality for np_type.

Definition np_base (t : np_type) : option np_type :=
  match t with
  | generic => None
  | bool_ | number | flexible | datetime64 | object_ => Some generic
  | integer | inexact => Some number
  | signedinteger | unsignedinteger => Some integer
  | floating | complexfloating => Some inexact
  | character | void => Some flexible
  | int8 | int16 | int32 | int64 | timedelta64 => Some signedinteger
  | uint8 | uint16 | uint32 | uint64 => Some unsignedinteger
  | float16 | float32 | float64 | longdouble => Some floating
  | complex64 | complex128 | clongdouble => Some complexfloating
  | bytes_ | str_ => Some character
  end.

(** [issubclass(t, c)]; the hierarchy is five classes deep *)
Fixpoint issubclass_upto (n : nat) (t c : np_type) : bool :=
  np_type_beq t c ||
  match n with
  | 0 => false
  | S n' =>
      match np_base t with
      | Some b => issubclass_upto n' b c
      | None => false
      end
  end.

(** [np.issubdtype(arg1, arg2)] for a dtype and a scalar class *)
Definition issubdtype (arg1 arg2 : np_type) : bool :=
  issubclass_upto 5 arg1 arg2.

(** The kind of a scalar type as the spec speaks of it, read off numpy's
    abstract classes [np.integer], [np.floating], [np.complexfloating]. *)
Inductive scalar_kind := KInteger | KReal | KComplex | KOther.

Definition kind_of (t : np_type) : scalar_kind :=
  if issubdtype t integer then KInteger
  else if issubdtype t floating then KReal
  else if issubdtype t complexfloating then KComplex
  else KOther.

(** An n-dimensional array: its dtype, its shape and its entries in
    row-major order ([arr.flat]). *)
Record ndarray (A : Type) := mk_ndarray {
  dtype : np_type;
  shape : list nat;
  flat  : list A
}.

Definition ndim {A} (a : ndarray A) : nat := length (shape a).

Definition size_of (sh : list nat) : nat := fold_right Nat.mul 1 sh.

(** numpy keeps [len(flat) = prod(shape)] *)
Definition wf_array {A} (a : ndarray A) : Prop :=
  length (flat a) = size_of (shape a).

(** Iterating an array of shape [d :: rest] yields its [d] sub-arrays of
    shape [rest], consecutive chunks of the flat data. *)
Fixpoint chunks {A} (n d : nat) (l : list A) : list (list A) :=
  match d with
  | 0 => []
  | S d' => firstn n l :: chunks n d' (skipn n l)
  end.

Definition subarrays {A} (d : nat) (rest : list nat) (l : list A)
  : list (list A) :=
  chunks (size_of rest) d l.

(** [arr.item()] of a 0-d array *)
Definition item {A} (l : list A) : result A :=
  match l with
  | [x] => Ok x
  | _ => Raise ValueError
  end.

(** [np.array(entries).reshape(shape)]; an empty list gives a float64
    array, a list of strings a string array. *)
Definition reshape (entries : list str) (sh : list nat)
  : result (ndarray str) :=
  if length entries =? size_of sh
  then Ok (mk_ndarray (match entries with [] => float64 | _ => str_ end)
                      sh entries)
  else Raise ValueError.

(** ** Regular expressions

    The three patterns of [fmt_entries] are sequences of capturing groups,
    optional or not, each a sequence of one-character atoms under a greedy
    quantifier.  Matching is by backtracking; every function returns the
    ways to match in the order the backtracking engine tries them. *)

Module Re.

Inductive cset :=
| Any                      (* .      : anything but a newline *)
| OneOf (cs : list char)   (* [+-], e, j *)
| Range (lo hi : char).    (* [0-9] *)

Definition cset_mem (c : char) (k : cset) : bool :=
  match k with
  | Any => negb (N.eqb c newline)
  | OneOf cs => existsb (N.eqb c) cs
  | Range lo hi => N.leb lo c && N.leb c hi
  end.

Inductive quant := Once | Opt | Star | Plus.

Record atom := mk_atom { at_set : cset; at_quant : quant }.

Record group := mk_group { body : list atom; optional : bool }.

Definition pattern := list group.

Definition cons_fst (c : char) (p : str * str) : str * str :=
  (c :: fst p, snd p).

(** [k*], longest first *)
Fixpoint match_star (k : cset) (s : str) : list (str * str) :=
  match s with
  | c :: s' =>
      if cset_mem c k
      then map (cons_fst c) (match_star k s') ++ [([], s)]
      else [([], s)]
  | [] => [([], s)]
  end.

(** the (matched, remaining) splits of [s] for one atom *)
Definition match_atom (a : atom) (s : str) : list (str * str) :=
  match at_quant a, s with
  | Once, c :: s' =>
      if cset_mem c (at_set a) then [([c], s')] else []
  | Once, [] => []
  | Opt, c :: s' =>
      if cset_mem c (at_set a) then [([c], s'); ([], s)] else [([], s)]
  | Opt, [] => [([], s)]
  | Star, _ => match_star (at_set a) s
  | Plus, c :: s' =>
      if cset_mem c (at_set a)
      then map (cons_fst c) (match_star (at_set a) s')
      else []
  | Plus, [] => []
  end.

Fixpoint match_atoms (l : list atom) (s : str) : list (str * str) :=
  match l with
  | [] => [([], s)]
  | a :: l' =>
      flat_map (fun p1 =>
        map (fun p2 => (fst p1 ++ fst p2, snd p2))
            (match_atoms l' (snd p1)))
        (match_atom a s)
  end.

(** captures ([None] for a group that did not take part) and the rest *)
Fixpoint match_groups (gs : pattern) (s : str)
  : list (list (option str) * str) :=
  match gs with
  | [] => [([], s)]
  | g :: gs' =>
      flat_map (fun p1 =>
        map (fun p2 => (Some (fst p1) :: fst p2, snd p2))
            (match_groups gs' (snd p1)))
        (match_atoms (body g) s)
      ++ (if optional g
          then map (fun p2 => (None :: fst p2, snd p2)) (match_groups gs' s)
          else [])
  end.

(** [re.search(pattern, s)]: the first match at the leftmost position
    that has one; the result is [m.groups()], or [None]. *)
Fixpoint search (p : pattern) (s : str) : option (list (option str)) :=
  match match_groups p s with
  | m :: _ => Some (fst m)
  | [] =>
      match s with
      | [] => None
      | _ :: s' => search p s'
      end
  end.

Definition sign  : cset := OneOf (lit "+-").
Definition digit : cset := Range 48%N 57%N.

(** group "( [+-]? [0-9]+ . )" *)
Definition g_int_point : group :=
  mk_group [mk_atom sign Opt; mk_atom digit Plus; mk_atom Any Once] false.
(** group "( [0-9]* )" *)
Definition g_dec : group := mk_group [mk_atom digit Star] false.
(** group "( e [+-] [0-9]+ )?" *)
Definition g_exp : group :=
  mk_group [mk_atom (OneOf (lit "e")) Once; mk_atom sign Once;
            mk_atom digit Plus] true.
(** group "( [+-] [0-9]+ . )" *)
Definition g_imag_point : group :=
  mk_group [mk_atom sign Once; mk_atom digit Plus; mk_atom Any Once] false.

(** the integer pattern, one group "( [+-]? [0-9]+ )" *)
Definition pat_integer : pattern :=
  [mk_group [mk_atom sign Opt; mk_atom digit Plus] false].

(** the float pattern: integer part with the point, decimals, and an
    optional exponent *)
Definition pat_floating : pattern := [g_int_point; g_dec; g_exp].

(** the complex pattern: the three groups of the real part, the three of
    the imaginary part (its sign is mandatory), and the group "(j)" *)
Definition pat_complex : pattern :=
  [g_int_point; g_dec; g_exp; g_imag_point; g_dec; g_exp;
   mk_group [mk_atom (OneOf (lit "j")) Once] false].

End Re.

(** ** Array formatting: boxes and stacks *)

Definition h_solid : char := 9472%N.   (* U+2500 *)
Definition v_solid : char := 9474%N.   (* U+2502 *)
Definition h_dots  : char := 9548%N.   (* U+254C *)
Definition v_dots  : char := 9482%N.   (* U+250A *)
Definition c_tl : char := 9484%N.      (* U+250C *)
Definition c_tr : char := 9488%N.      (* U+2510 *)
Definition c_bl : char := 9492%N.      (* U+2514 *)
Definition c_br : char := 9496%N.      (* U+2518 *)

Definition box (lines : list str) (dotted : bool) : result (list str) :=
  let h := if dotted then h_dots else h_solid in
  let v := if dotted then v_dots else v_solid in
  (width <- py_max (map (@length char) lines) ;;
   let top := [[c_tl] ++ str_mul [h] (Z.of_nat width) ++ [c_tr]] in
   let bot := [[c_bl] ++ str_mul [h] (Z.of_nat width) ++ [c_br]] in
   let mid := map (fun l => [v] ++ ljust l width ++ [v]) lines in
   Ok (top ++ mid ++ bot))%res.

Definition vstack (blocks : list (list str)) : result (list str) :=
  let lines := concat blocks in
  (width <- py_max (map (@length char) lines) ;;
   Ok (map (fun l => ljust l width) lines))%res.

Definition pad_block (height : nat) (b : list str) : result (list str) :=
  match b with
  | [] => Raise IndexError         (* b[0] *)
  | b0 :: _ =>
      Ok (b ++ repeat (str_mul [space] (Z.of_nat (length b0)))
                      (height - length b))
  end.

Definition hstack (blocks : list (list str)) (spacing : Z)
  : result (list str) :=
  (height <- py_max (map (@length str) blocks) ;;
   blocks' <- rmap (pad_block height) blocks ;;
   let line_tuples := zip_star [] blocks' in
   Ok (map (join (str_mul [space] spacing)) line_tuples))%res.

Section Layout.

(** the options [fmt_arr] reads from the enclosing call of [parr] *)
Variable dot_odds : bool.
Variable bracket_inner_1D : bool.
Variable box_inner_1D : bool.

Fixpoint fmt_arr (sh : list nat) (entries : list str)
  : result (list str) :=
  match sh with
  | [] => (x <- item entries ;; Ok [x])%res
  | d :: rest =>
      let nd := length sh in
      if bracket_inner_1D && (nd =? 1)
      then Ok [lit "[" ++ join [space] entries ++ lit "]"]
      else if negb box_inner_1D && (nd =? 1)
      then Ok [join [space] entries]
      else
        (fmtted <- rmap (fmt_arr rest) (subarrays d rest entries) ;;
         if Nat.even nd
         then (st <- vstack fmtted ;; box st false)
         else (st <- hstack fmtted 0 ;; box st dot_odds))%res
  end.

End Layout.

(** ** Effects: collaborator calls and standard output *)

Section Render.

(** The entries of the input array and numpy's printer for one of them,
    [np.array2string(np.array(x), precision=p, floatmode="maxprec")].
    The printer is not ours: it answers with a text or raises (it refuses
    a negative precision for a float, for one). *)
Variable scalar : Type.
Variable array2string : scalar -> Z -> result str.

Inductive event :=
| Array2String (x : scalar) (precision : Z)
| StdoutWrite (text : str).

Definition trace := list event.

(** A computation reads the trace so far and returns a value or an
    exception, and the extended trace. *)
Definition M (A : Type) := trace -> result A * trace.

Definition ret {A} (a : A) : M A := fun t => (Ok a, t).

Definition raise {A} (e : exn) : M A := fun t => (Raise e, t).

Definition bind {A B} (c : M A) (k : A -> M B) : M B :=
  fun t =>
    match c t with
    | (Ok a, t') => k a t'
    | (Raise e, t') => (Raise e, t')
    end.

Definition lift {A} (r : result A) : M A := fun t => (r, t).

Definition emit (e : event) : M unit := fun t => (Ok tt, t ++ [e]).

Declare Scope m_scope.
Delimit Scope m_scope with M.
Notation "x <- c ;; k" := (bind c (fun x => k))
  (at level 61, c at next level, right associativity) : m_scope.

Fixpoint mmap {A B} (f : A -> M B) (l : list A) : M (list B) :=
  match l with
  | [] => ret []
  | x :: l' =>
      (y <- f x ;;
       ys <- mmap f l' ;;
       ret (y :: ys))%M
  end.

Definition call_array2string (precision : Z) (x : scalar) : M str :=
  (_ <- emit (Array2String x precision) ;;
   lift (array2string x precision))%M.

(** [print(s)] *)
Definition print (s : str) : M unit :=
  emit (StdoutWrite (s ++ [newline])).

Definition stdout (t : trace) : list str :=
  flat_map (fun e => match e with
                     | StdoutWrite s => [s]
                     | Array2String _ _ => []
                     end) t.

Definition collaborator_calls (t : trace) : list scalar :=
  flat_map (fun e => match e with
                     | Array2String x _ => [x]
                     | StdoutWrite _ => []
                     end) t.

(** ** Array entry formatting *)

Fixpoint fmt_entry (parts : list str) (maxlens : list nat)
  (lj : list bool) : str :=
  match parts, maxlens, lj with
  | part :: parts', ml :: maxlens', j :: lj' =>
      (if j then ljust part ml else rjust part ml)
        ++ fmt_entry parts' maxlens' lj'
  | _, _, _ => []
  end.

(** the pattern and the justification flags for a dtype *)
Definition select_pattern (dt : np_type) : result (Re.pattern * list bool) :=
  if issubdtype dt integer then
    Ok (Re.pat_integer, [false])
  else if issubdtype dt floating then
    Ok (Re.pat_floating, [false; true; true])
  else if issubdtype dt complex128 then
    Ok (Re.pat_complex, [false; true; true; false; true; true; false])
  else Raise NotImplementedError.

(** [re.search(pattern, s).groups()]: a failed search is [None], and
    [None.groups()] an [AttributeError] *)
Definition search_groups (p : Re.pattern) (s : str)
  : result (list (option str)) :=
  match Re.search p s with
  | Some g => Ok g
  | None => Raise AttributeError
  end.

Definition none_to_empty (t : list (option str)) : list str :=
  map (fun e => match e with Some x => x | None => [] end) t.

Definition fmt_entries (max_precision : Z) (arr : ndarray scalar)
  : M (ndarray str) :=
  (stringified <- mmap (call_array2string max_precision) (flat arr) ;;
   pl <- lift (select_pattern (dtype arr)) ;;
   let pattern := fst pl in
   let lj := snd pl in
   regroups <- lift (rmap (search_groups pattern) stringified) ;;
   let regroups := map none_to_empty regroups in
   maxlens <- lift (rmap (fun g => py_max (map (@length char) g))
                         (zip_star [] regroups)) ;;
   lift (reshape (map (fun t => fmt_entry t maxlens lj) regroups)
                 (shape arr)))%M.

(** what [fmt_entries] does once the texts are there *)
Definition align_texts (dt : np_type) (sh : list nat)
  (stringified : list str) : result (ndarray str) :=
  (pl <- select_pattern dt ;;
   regroups <- rmap (search_groups (fst pl)) stringified ;;
   let regroups := map none_to_empty regroups in
   maxlens <- rmap (fun g => py_max (map (@length char) g))
                   (zip_star [] regroups) ;;
   reshape (map (fun t => fmt_entry t maxlens (snd pl)) regroups) sh)%res.

(** ** The public operation *)

Record options := mk_options {
  max_precision : Z;
  dot_odds : bool;
  bracket_inner_1D : bool;
  box_inner_1D : bool
}.

Definition default_options : options := mk_options 4 true false false.

(** What [parr] may be handed: an ndarray, or anything else. *)
Inductive pyobj :=
| NotAnArray
| NDArray (arr : ndarray scalar).

Definition parr (arr : pyobj) (o : options) : M unit :=
  match arr with
  | NotAnArray => raise TypeError
  | NDArray a =>
      let box_inner_1D' := if ndim a =? 1 then true else box_inner_1D o in
      (entries <- fmt_entries (max_precision o) a ;;
       lines <- lift (fmt_arr (dot_odds o) (bracket_inner_1D o) box_inner_1D'
                              (shape entries) (flat entries)) ;;
       print (join [newline] lines))%M
  end.

End Render.

Arguments Array2String {scalar} x precision.
Arguments StdoutWrite {scalar} text.
Arguments NotAnArray {scalar}.
Arguments NDArray {scalar} arr.

(** ** Collaborators used in the scenarios *)

(** what numpy prints for an integer *)
Definition int_text (z : Z) : str :=
  lit (NilZero.string_of_int (Z.to_int z)).

Definition np_int_text (x : Z) (precision : Z) : result str :=
  Ok (int_text x).

(** the text itself as collaborator, for arrays given by the texts numpy
    prints for their entries *)
Definition given_text (x : str) (precision : Z) : result str := Ok x.

(** the same for float and complex entries, for which numpy refuses a
    negative precision with a [ValueError] *)
Definition given_float_text (x : str) (precision : Z) : result str :=
  if Z.ltb precision 0 then Raise ValueError else Ok x.

(** ** Vocabulary of the statements *)

(** the rule characters of a box *)
Definition rule_h (dotted : bool) : char := if dotted then h_dots else h_solid.
Definition rule_v (dotted : bool) : char := if dotted then v_dots else v_solid.

(** the border lines of a box around content of width [w], and a content
    line between its vertical rules *)
Definition top_border (dotted : bool) (w : nat) : str :=
  c_tl :: repeat (rule_h dotted) w ++ [c_tr].
Definition bottom_border (dotted : bool) (w : nat) : str :=
  c_bl :: repeat (rule_h dotted) w ++ [c_br].
Definition bordered (dotted : bool) (l : str) : str :=
  rule_v dotted :: l ++ [rule_v dotted].

(** a block: at least one line, all lines of width [w] *)
Definition block_of_width (w : nat) (lines : list str) : Prop :=
  lines <> [] /\ Forall (fun l => length l = w) lines.

(** a grid without entries has a zero in its shape *)
Definition nonempty_shape (sh : list nat) : Prop := Forall (fun d => 0 < d) sh.

(** the text group number [k] of the pattern captures in [text] *)
Definition captured (p : Re.pattern) (k : nat) (text : str) : option str :=
  match Re.search p text with
  | Some g =>
      match nth_error g k with
      | Some (Some m) => Some m
      | _ => None
      end
  | None => None
  end.

(** [part] sits in [entry] with its last character at column [col] *)
Definition last_char_at (part : str) (col : nat) (entry : str) : Prop :=
  exists pre body c post,
    part = body ++ [c] /\
    entry = pre ++ part ++ post /\
    length pre + length body = col.

(** a capture of a match comes from the body of its group, and only
    an optional group is left out *)
Definition capture_of (g : Re.group) (cap : option str) : Prop :=
  match cap with
  | Some m => exists s r, In (m, r) (Re.match_atoms (Re.body g) s)
  | None => Re.optional g = true
  end.

(** a text without its spaces *)
Definition strip_spaces (s : str) : str :=
  filter (fun c => negb (N.eqb c space)) s.

(** the text has a character of [0-9] *)
Definition has_digit (s : str) : bool :=
  existsb (fun c => Re.cset_mem c Re.digit) s.

(** a text that is an optional sign and then digits, nothing else *)
Definition signed_digits (s : str) : Prop :=
  exists sgn ds,
    s = sgn ++ ds /\
    (sgn = [] \/ sgn = lit "+" \/ sgn = lit "-") /\
    ds <> [] /\
    Forall (fun d => Re.cset_mem d Re.digit = true) ds.

(** height and width of the block that [fmt_arr] makes of a grid whose
    entries all have width [w], following its case analysis *)
Fixpoint block_size (bracket_inner_1D box_inner_1D : bool) (w : nat)
  (sh : list nat) : nat * nat :=
  match sh with
  | [] => (1, w)
  | d :: rest =>
      let nd := length sh in
      let row := d * w + (d - 1) in
      if bracket_inner_1D && (nd =? 1) then (1, row + 2)
      else if negb box_inner_1D && (nd =? 1) then (1, row)
      else
        let hw := block_size bracket_inner_1D box_inner_1D w rest in
        if Nat.even nd
        then (d * fst hw + 2, snd hw + 2)
        else (fst hw + 2, d * snd hw + 2)
  end.

(** a text that is an optional sign, digits, a point, and anything *)
Definition digits_then_point (s : str) : Prop :=
  exists sgn ds rest,
    s = sgn ++ ds ++ lit "." ++ rest /\
    (sgn = [] \/ sgn = lit "+" \/ sgn = lit "-") /\
    ds <> [] /\
    Forall (fun d => Re.cset_mem d Re.digit = true) ds.

(** an exponent as numpy prints it ("e", a sign, digits), or none *)
Definition exponent_text (ex : str) : Prop :=
  ex = [] \/
  exists es eds,
    ex = lit "e" ++ es ++ eds /\
    (es = lit "+" \/ es = lit "-") /\
    eds <> [] /\
    Forall (fun d => Re.cset_mem d Re.digit = true) eds.

(** a text as numpy prints a complex number: the real part (an optional
    sign, digits, a point, decimals or none, an exponent or none), then
    the imaginary part (the same, with a mandatory sign) and "j" *)
Definition complex_text (s : str) : Prop :=
  exists sgn ds dec ex sgn' ds' dec' ex' rest,
    s = sgn ++ ds ++ lit "." ++ dec ++ ex
        ++ sgn' ++ ds' ++ lit "." ++ dec' ++ ex' ++ lit "j" ++ rest /\
    (sgn = [] \/ sgn = lit "+" \/ sgn = lit "-") /\
    ds <> [] /\
    Forall (fun d => Re.cset_mem d Re.digit = true) ds /\
    Forall (fun d => Re.cset_mem d Re.digit = true) dec /\
    exponent_text ex /\
    (sgn' = lit "+" \/ sgn' = lit "-") /\
    ds' <> [] /\
    Forall (fun d => Re.cset_mem d Re.digit = true) ds' /\
    Forall (fun d => Re.cset_mem d Re.digit = true) dec' /\
    exponent_text ex'.

(** the collaborator answers the entries [l] with the texts [texts] *)
Definition answers {scalar : Type}
  (array2string : scalar -> Z -> result str) (prec : Z)
  (l : list scalar) (texts : list str) : Prop :=
  Forall2 (fun x s => array2string x prec = Ok s) l texts.

(** * Properties *)

(** ** Strings and lists *)

Lemma str_mul_char (c : char) (n : nat) :
  str_mul [c] (Z.of_nat n) = repeat c n.
Proof.
  unfold str_mul. rewrite Nat2Z.id.
  induction n as [|n IH]; simpl; [reflexivity | now rewrite IH].
Qed.

Lemma ljust_length (s : str) (w : nat) :
  length (ljust s w) = Nat.max (length s) w.
Proof. unfold ljust. rewrite length_app, repeat_length. lia. Qed.

Lemma rjust_length (s : str) (w : nat) :
  length (rjust s w) = Nat.max (length s) w.
Proof. unfold rjust. rewrite length_app, repeat_length. lia. Qed.

Lemma ljust_exact (s : str) (w : nat) : length s = w -> ljust s w = s.
Proof.
  intros <-. unfold ljust. rewrite Nat.sub_diag. simpl. apply app_nil_r.
Qed.

Lemma join_empty_sep (items : list str) : join [] items = concat items.
Proof.
  induction items as [|x [|y rest] IH]; simpl in *.
  - reflexivity.
  - now rewrite app_nil_r.
  - now rewrite IH.
Qed.

Lemma list_max_bound (l : list nat) (x : nat) : In x l -> x <= list_max l.
Proof.
  intros Hin.
  assert (H : Forall (fun k => k <= list_max l) l)
    by (apply list_max_le; lia).
  rewrite Forall_forall in H. now apply H.
Qed.

Lemma list_max_const (l : list nat) (w : nat) :
  l <> [] -> Forall (fun k => k = w) l -> list_max l = w.
Proof.
  intros Hne Hall. destruct l as [|x l]; [congruence|].
  inversion Hall as [|? ? Hx Hl]; subst. simpl.
  assert (list_max l <= w).
  { apply list_max_le. eapply Forall_impl; [|exact Hl].
    simpl. intros; lia. }
  lia.
Qed.

Lemma py_max_ok (l : list nat) : l <> [] -> py_max l = Ok (list_max l).
Proof. destruct l; [congruence | reflexivity]. Qed.

Lemma list_min_const (l : list nat) (w : nat) :
  l <> [] -> Forall (fun k => k = w) l -> list_min l = w.
Proof.
  intros Hne Hall. destruct l as [|x l]; [congruence|].
  inversion Hall as [|? ? Hx Hl]; subst. simpl. clear Hne Hall.
  induction Hl as [|y l Hy Hl IH]; simpl; [reflexivity|].
  subst. rewrite IH. apply Nat.min_id.
Qed.

(** ** Comprehensions that may raise *)

Lemma rmap_ok {A B} (f : A -> result B) (P : B -> Prop) (l : list A) :
  Forall (fun x => exists y, f x = Ok y /\ P y) l ->
  exists ys, rmap f l = Ok ys /\ Forall P ys /\ length ys = length l.
Proof.
  induction 1 as [|x l Hx _ IH]; simpl.
  - exists []. auto.
  - destruct Hx as (y & Hy & Py). destruct IH as (ys & Hys & Pys & Hlen).
    exists (y :: ys). rewrite Hy, Hys. simpl. auto.
Qed.

Lemma rmap_forall2 {A B} (f : A -> result B) (l : list A) (ys : list B) :
  rmap f l = Ok ys -> Forall2 (fun x y => f x = Ok y) l ys.
Proof.
  revert ys. induction l as [|x l IH]; simpl; intros ys H.
  - injection H as <-. constructor.
  - destruct (f x) as [y|] eqn:Hy; simpl in H; [|discriminate].
    destruct (rmap f l) as [ys'|]; simpl in H; [|discriminate].
    injection H as <-. constructor; auto.
Qed.

(** ** Sub-arrays *)

Lemma chunks_length {A} (n d : nat) (l : list A) :
  length (chunks n d l) = d.
Proof.
  revert l. induction d as [|d IH]; intros l; simpl; auto.
Qed.

Lemma chunks_sizes {A} (n d : nat) (l : list A) :
  length l = d * n -> Forall (fun c => length c = n) (chunks n d l).
Proof.
  revert l. induction d as [|d IH]; intros l Hl; simpl; constructor.
  - rewrite length_firstn. simpl in Hl. lia.
  - apply IH. rewrite length_skipn. simpl in Hl. lia.
Qed.

Lemma chunks_unit {A} (l : list A) :
  chunks 1 (length l) l = map (fun x => [x]) l.
Proof.
  induction l as [|x l IH]; simpl; [reflexivity | now rewrite IH].
Qed.

(** ** The box *)

Lemma box_eq (lines : list str) (dotted : bool) :
  lines <> [] ->
  let w := list_max (map (@length char) lines) in
  box lines dotted =
    Ok (top_border dotted w
          :: map (fun l => bordered dotted (ljust l w)) lines
          ++ [bottom_border dotted w]).
Proof.
  intros Hne w. unfold box.
  rewrite py_max_ok by (destruct lines; simpl; congruence).
  simpl. fold w. rewrite str_mul_char.
  unfold top_border, bottom_border, bordered, rule_h, rule_v.
  destruct dotted; reflexivity.
Qed.

Lemma box_block (lines : list str) (dotted : bool) :
  lines <> [] ->
  exists out,
    box lines dotted = Ok out /\
    block_of_width (list_max (map (@length char) lines) + 2) out /\
    length out = length lines + 2.
Proof.
  intros Hne. eexists. split; [apply box_eq; assumption|].
  set (w := list_max (map (@length char) lines)).
  split; [split; [discriminate|] |].
  - constructor; [|apply Forall_app; split; [|constructor; [|constructor]]].
    + unfold top_border. simpl. rewrite length_app, repeat_length.
      simpl. lia.
    + apply Forall_map, Forall_forall. intros l Hl.
      unfold bordered. simpl. rewrite length_app, ljust_length. simpl.
      assert (length l <= w)
        by (apply list_max_bound, in_map_iff; eauto).
      lia.
    + unfold bottom_border. simpl. rewrite length_app, repeat_length.
      simpl. lia.
  - simpl. rewrite length_app, length_map. simpl. lia.
Qed.

Lemma box_of_block (lines : list str) (W : nat) (dotted : bool) :
  block_of_width W lines ->
  box lines dotted =
    Ok (top_border dotted W
          :: map (bordered dotted) lines ++ [bottom_border dotted W]) /\
  block_of_width (W + 2)
    (top_border dotted W
       :: map (bordered dotted) lines ++ [bottom_border dotted W]).
Proof.
  intros [Hne Hall].
  assert (Hw : list_max (map (@length char) lines) = W).
  { apply list_max_const.
    - destruct lines; simpl; congruence.
    - now apply Forall_map. }
  assert (Hmid : map (fun l => bordered dotted (ljust l W)) lines
                 = map (bordered dotted) lines).
  { apply map_ext_in. intros l Hl. rewrite ljust_exact; [reflexivity|].
    rewrite Forall_forall in Hall. now apply Hall. }
  pose proof (box_eq dotted Hne) as Heq. simpl in Heq.
  rewrite Hw, Hmid in Heq. split; [exact Heq|].
  destruct (box_block dotted Hne) as (out & Hout & Hblock & _).
  rewrite Heq in Hout. injection Hout as <-. now rewrite Hw in Hblock.
Qed.

(** C8. Box invariant: around a block of content width [W] the box is
    the top border (corner, [W] horizontal rules, corner), every content
    line between two vertical rules, and the bottom border (the other two
    corners around [W] horizontal rules); every line of the result has
    width [W + 2]. *)
Theorem box_invariant (lines : list str) (W : nat) (dotted : bool) :
  block_of_width W lines ->
  let h := if dotted then h_dots else h_solid in
  let v := if dotted then v_dots else v_solid in
  let out := (c_tl :: repeat h W ++ [c_tr])
               :: map (fun l => v :: l ++ [v]) lines
               ++ [c_bl :: repeat h W ++ [c_br]] in
  box lines dotted = Ok out /\
  Forall (fun l => length l = W + 2) out.
Proof.
  intros Hblock h v out.
  destruct (box_of_block dotted Hblock) as [Heq [_ Hall]].
  split; [exact Heq | exact Hall].
Qed.

Lemma box_invariant_witness :
  block_of_width 2 [lit "ab"; lit "cd"] /\
  box [lit "ab"; lit "cd"] true =
    Ok [c_tl :: repeat h_dots 2 ++ [c_tr];
        v_dots :: lit "ab" ++ [v_dots];
        v_dots :: lit "cd" ++ [v_dots];
        c_bl :: repeat h_dots 2 ++ [c_br]].
Proof.
  assert (H : block_of_width 2 [lit "ab"; lit "cd"]).
  { split; [discriminate | repeat constructor]. }
  split; [exact H | exact (proj1 (box_invariant true H))].
Defined.

(** ** The stacks *)

Lemma vstack_block (blocks : list (list str)) :
  concat blocks <> [] ->
  let w := list_max (map (@length char) (concat blocks)) in
  vstack blocks = Ok (map (fun l => ljust l w) (concat blocks)) /\
  block_of_width w (map (fun l => ljust l w) (concat blocks)).
Proof.
  intros Hne w. unfold vstack.
  rewrite py_max_ok by (destruct (concat blocks); simpl; congruence).
  simpl. fold w. split; [reflexivity|]. split.
  - destruct (concat blocks); simpl; congruence.
  - apply Forall_map, Forall_forall. intros l Hl.
    rewrite ljust_length.
    assert (length l <= w) by (apply list_max_bound, in_map_iff; eauto).
    lia.
Qed.

Lemma pad_block_height (h : nat) (b : list str) :
  b <> [] -> length b <= h ->
  exists b', pad_block h b = Ok b' /\ length b' = h.
Proof.
  intros Hne Hle. destruct b as [|b0 b]; [congruence|].
  eexists. split; [reflexivity|].
  rewrite length_app, repeat_length. lia.
Qed.

Lemma zip_star_length {A} (d : A) (rows : list (list A)) (h : nat) :
  rows <> [] -> Forall (fun r => length r = h) rows ->
  length (zip_star d rows) = h.
Proof.
  intros Hne Hall. unfold zip_star. rewrite length_map, length_seq.
  apply list_min_const.
  - destruct rows; simpl; congruence.
  - now apply Forall_map.
Qed.

Lemma hstack_height (blocks : list (list str)) (spacing : Z) :
  blocks <> [] -> Forall (fun b => b <> []) blocks ->
  exists out,
    hstack blocks spacing = Ok out /\
    length out = list_max (map (@length str) blocks) /\ out <> [].
Proof.
  intros Hne Hall. unfold hstack.
  rewrite py_max_ok by (destruct blocks; simpl; congruence).
  cbn [rbind]. set (h := list_max (map (@length str) blocks)).
  destruct (@rmap_ok _ _ (pad_block h) (fun b' => length b' = h) blocks)
    as (blocks' & Hpad & Hh & Hlen).
  { rewrite Forall_forall in *. intros b Hb.
    apply pad_block_height; [now apply Hall|].
    apply list_max_bound, in_map_iff; eauto. }
  rewrite Hpad. cbn [rbind]. eexists. split; [reflexivity|].
  assert (Hzip : length (zip_star [] blocks') = h).
  { apply zip_star_length; [|assumption].
    destruct blocks, blocks'; simpl in *; congruence. }
  assert (0 < h).
  { destruct blocks as [|b blocks]; [congruence|].
    inversion Hall; subst.
    assert (length b <= h) by (apply list_max_bound; simpl; auto).
    destruct b; [congruence | simpl in *; lia]. }
  assert (Hout : forall sep,
             length (map (join sep) (zip_star [] blocks')) = h).
  { intros sep. rewrite length_map. exact Hzip. }
  split; [apply Hout|].
  intros Hnil. specialize (Hout (str_mul [space] spacing)).
  rewrite Hnil in Hout. simpl in Hout. lia.
Qed.

(** ** The layout engine *)

Section LayoutProperties.

Variables dot_odds bracket_inner_1D box_inner_1D : bool.

Local Notation "'render'" :=
  (fmt_arr dot_odds bracket_inner_1D box_inner_1D).

Lemma subarrays_sizes {A} (d : nat) (rest : list nat) (l : list A) :
  length l = size_of (d :: rest) ->
  Forall (fun c => length c = size_of rest) (subarrays d rest l).
Proof. intros H. apply chunks_sizes. exact H. Qed.

(** the recursive case, for a grid of two dimensions or more *)
Lemma fmt_arr_recursive (d : nat) (rest : list nat) (entries : list str) :
  rest <> [] ->
  render (d :: rest) entries =
    (fmtted <- rmap (render rest) (subarrays d rest entries) ;;
     if Nat.even (length (d :: rest))
     then (st <- vstack fmtted ;; box st false)
     else (st <- hstack fmtted 0 ;; box st dot_odds))%res.
Proof.
  intros Hrest. destruct rest as [|d' rest']; [congruence|].
  simpl fmt_arr at 1. simpl length.
  rewrite !andb_false_r. reflexivity.
Qed.

(** a non-empty grid always renders, to a block *)
Lemma fmt_arr_block (sh : list nat) :
  forall entries,
    nonempty_shape sh -> length entries = size_of sh ->
    exists lines w, render sh entries = Ok lines /\ block_of_width w lines.
Proof.
  induction sh as [|d rest IH]; intros entries Hpos Hlen.
  - destruct entries as [|x [|y entries]]; simpl in Hlen; try discriminate.
    exists [x], (length x). split; [reflexivity|].
    split; [discriminate | repeat constructor].
  - inversion Hpos as [|? ? Hd Hrest]; subst.
    cbn [fmt_arr].
    destruct (bracket_inner_1D && _).
    { eexists _, _. split; [reflexivity|].
      split; [discriminate | repeat constructor]. }
    destruct (negb box_inner_1D && _).
    { eexists _, _. split; [reflexivity|].
      split; [discriminate | repeat constructor]. }
    destruct (@rmap_ok _ _
                (fmt_arr dot_odds bracket_inner_1D box_inner_1D rest)
                (fun b => b <> []) (subarrays d rest entries))
      as (fmtted & Hf & Hne & Hcount).
    { eapply Forall_impl; [|apply subarrays_sizes; exact Hlen].
      intros c Hc. destruct (IH c Hrest Hc) as (b & w & Hb & Hb1 & _).
      eauto. }
    rewrite Hf. cbn [rbind].
    unfold subarrays in Hcount. rewrite chunks_length in Hcount.
    destruct fmtted as [|b fmtted]; [simpl in Hcount; lia|].
    inversion Hne as [|? ? Hb Hne']; subst.
    destruct (Nat.even _).
    + destruct (@vstack_block (b :: fmtted)) as [Hv [Hv1 _]].
      { simpl. destruct b; [congruence | discriminate]. }
      rewrite Hv. cbn [rbind].
      destruct (box_block false Hv1) as (out & Hout & Hblock & _).
      eauto.
    + destruct (@hstack_height (b :: fmtted) 0) as (st & Hh & _ & Hst);
        [discriminate | assumption |].
      rewrite Hh. cbn [rbind].
      destruct (box_block dot_odds Hst) as (out & Hout & Hblock & _).
      eauto.
Qed.

End LayoutProperties.

(** C2. No ragged output: on a non-empty grid the layout engine returns,
    whatever the options, and all the lines it returns have one and the
    same length. *)
Theorem fmt_arr_never_ragged
  (dot_odds bracket_inner_1D box_inner_1D : bool)
  (sh : list nat) (entries : list str) :
  nonempty_shape sh ->
  length entries = size_of sh ->
  exists lines w,
    fmt_arr dot_odds bracket_inner_1D box_inner_1D sh entries = Ok lines /\
    Forall (fun l => length l = w) lines.
Proof.
  intros Hpos Hlen.
  destruct (fmt_arr_block dot_odds bracket_inner_1D box_inner_1D
              entries Hpos Hlen) as (lines & w & Hok & _ & Hall).
  exists lines, w. auto.
Qed.

Lemma fmt_arr_never_ragged_witness :
  exists lines w,
    fmt_arr true false false [2; 3]
      [lit "-1"; lit " 0"; lit "12"; lit " 5"; lit " 6"; lit " 7"]
    = Ok lines /\
    Forall (fun l => length l = w) lines.
Proof.
  apply (@fmt_arr_never_ragged true false false [2; 3]).
  - repeat constructor.
  - reflexivity.
Defined.

(** ** The pattern matcher *)

Lemma Forall2_nth_error {A B} (R : A -> B -> Prop) (l1 : list A)
  (l2 : list B) (k : nat) (a : A) :
  Forall2 R l1 l2 -> nth_error l1 k = Some a ->
  exists b, nth_error l2 k = Some b /\ R a b.
Proof.
  intros H. revert k. induction H as [|x y l1 l2 Hxy _ IH]; intros k Hk.
  - destruct k; discriminate.
  - destruct k as [|k]; simpl in *.
    + injection Hk as <-. eauto.
    + now apply IH.
Qed.

Lemma match_groups_captures (p : Re.pattern) :
  forall s caps r,
    In (caps, r) (Re.match_groups p s) -> Forall2 capture_of p caps.
Proof.
  induction p as [|g p IH]; intros s caps r Hin; simpl in Hin.
  - destruct Hin as [Heq|[]]. injection Heq as <- _. constructor.
  - apply in_app_or in Hin. destruct Hin as [Hin|Hin].
    + apply in_flat_map in Hin. destruct Hin as ([m r1] & Hm & Hin).
      apply in_map_iff in Hin. destruct Hin as ([caps' r2] & Heq & Hin).
      simpl in Heq. injection Heq as <- _.
      constructor; [simpl; eauto | eapply IH; eauto].
    + destruct (Re.optional g) eqn:Hopt; [|destruct Hin].
      apply in_map_iff in Hin. destruct Hin as ([caps' r2] & Heq & Hin).
      simpl in Heq. injection Heq as <- _.
      constructor; [exact Hopt | eapply IH; eauto].
Qed.

Lemma search_captures (p : Re.pattern) (s : str) (g : list (option str)) :
  Re.search p s = Some g -> Forall2 capture_of p g.
Proof.
  induction s as [|c s IH]; simpl.
  - destruct (Re.match_groups p []) as [|[caps r] ms] eqn:Hm;
      [discriminate|].
    intros H. injection H as <-.
    eapply match_groups_captures. rewrite Hm. left. reflexivity.
  - destruct (Re.match_groups p (c :: s)) as [|[caps r] ms] eqn:Hm;
      [exact IH|].
    intros H. injection H as <-.
    eapply match_groups_captures. rewrite Hm. left. reflexivity.
Qed.

Lemma search_arity (p : Re.pattern) (s : str) (g : list (option str)) :
  Re.search p s = Some g -> length g = length p.
Proof.
  intros H. symmetry. eapply Forall2_length, search_captures, H.
Qed.

(** the text matched by atoms that end in a plain one-character atom ends
    in the character that atom matched *)
Lemma match_atoms_last (l : list Re.atom) (k : Re.cset) :
  forall s m r,
    In (m, r) (Re.match_atoms (l ++ [Re.mk_atom k Re.Once]) s) ->
    exists b c, m = b ++ [c] /\ Re.cset_mem c k = true.
Proof.
  induction l as [|a l IH]; intros s m r Hin; simpl in Hin;
    apply in_flat_map in Hin; destruct Hin as ([m1 r1] & H1 & Hin).
  - destruct Hin as [Heq|[]]. simpl in Heq. injection Heq as <- _.
    unfold Re.match_atom in H1. simpl in H1.
    destruct s as [|c s]; [destruct H1|].
    destruct (Re.cset_mem c k) eqn:Hc; [|destruct H1].
    destruct H1 as [H1|[]]. injection H1 as <- _.
    exists [], c. auto.
  - apply in_map_iff in Hin. destruct Hin as ([m2 r2] & Heq & H2).
    simpl in Heq. injection Heq as <- _.
    destruct (IH _ _ _ H2) as (b & c & -> & Hc).
    exists (m1 ++ b), c. rewrite app_assoc. auto.
Qed.

Lemma search_point (p : Re.pattern) (s : str) (g : list (option str))
  (k : nat) (grp : Re.group) (l : list Re.atom) (cs : Re.cset) :
  Re.search p s = Some g ->
  nth_error p k = Some grp ->
  Re.optional grp = false ->
  Re.body grp = l ++ [Re.mk_atom cs Re.Once] ->
  exists b c,
    captured p k s = Some (b ++ [c]) /\ Re.cset_mem c cs = true.
Proof.
  intros Hs Hk Hopt Hbody.
  destruct (Forall2_nth_error k (search_captures _ _ Hs) Hk)
    as (cap & Hcap & Hof).
  unfold captured. rewrite Hs, Hcap.
  destruct cap as [m|]; simpl in Hof.
  - destruct Hof as (s1 & r1 & Hin). rewrite Hbody in Hin.
    destruct (match_atoms_last _ _ _ _ _ Hin) as (b & c & -> & Hc).
    eauto.
  - congruence.
Qed.

(** ** Padding the parts of an entry *)

Lemma fmt_entry_length (parts : list str) :
  forall maxlens lj,
    length lj = length maxlens ->
    Forall2 (fun p m => length p <= m) parts maxlens ->
    length (fmt_entry parts maxlens lj) = list_sum maxlens.
Proof.
  induction parts as [|part parts IH]; intros maxlens lj Hlj Hle;
    inversion Hle as [|? ml ? maxlens' Hp Hrest]; subst.
  - reflexivity.
  - destruct lj as [|j lj]; [discriminate|]. simpl in Hlj.
    simpl. rewrite length_app, IH by (auto; lia).
    destruct j; rewrite ?ljust_length, ?rjust_length; lia.
Qed.

Lemma fmt_entry_column (k : nat) :
  forall parts maxlens lj part,
    length lj = length maxlens ->
    Forall2 (fun p m => length p <= m) parts maxlens ->
    nth_error parts k = Some part ->
    nth_error lj k = Some false ->
    exists pre post,
      fmt_entry parts maxlens lj = pre ++ part ++ post /\
      length pre + length part = list_sum (firstn (S k) maxlens).
Proof.
  induction k as [|k IH]; intros parts maxlens lj part Hlj Hle Hpart Hflag;
    inversion Hle as [|p0 ml parts' maxlens' Hp Hrest]; subst;
    try (simpl in Hpart; discriminate);
    (destruct lj as [|j lj]; [discriminate|]); simpl in Hlj.
  - simpl in Hpart, Hflag. injection Hpart as ->. injection Hflag as ->.
    exists (repeat space (ml - length part)),
           (fmt_entry parts' maxlens' lj).
    split.
    + simpl. unfold rjust. now rewrite <- app_assoc.
    + rewrite repeat_length. simpl. lia.
  - simpl in Hpart, Hflag.
    destruct (IH parts' maxlens' lj part) as (pre & post & Heq & Hcol);
      auto.
    exists ((if j then ljust p0 ml else rjust p0 ml) ++ pre), post.
    split.
    + simpl fmt_entry. rewrite Heq. now rewrite <- app_assoc.
    + rewrite length_app.
      assert (length (if j then ljust p0 ml else rjust p0 ml) = ml)
        by (destruct j; rewrite ?ljust_length, ?rjust_length; lia).
      rewrite (firstn_cons (S k) ml maxlens').
      change (list_sum (ml :: firstn (S k) maxlens'))
        with (ml + list_sum (firstn (S k) maxlens')).
      lia.
Qed.

(** ** Column maxima *)

Lemma Forall2_map_seq {A B} (R : A -> B -> Prop) (d : A) (F : nat -> B)
  (r : list A) :
  forall a,
    (forall i, i < length r -> R (nth i r d) (F (a + i))) ->
    Forall2 R r (map F (seq a (length r))).
Proof.
  induction r as [|x r IH]; intros a H; simpl; constructor.
  - specialize (H 0). simpl in H. rewrite Nat.add_0_r in H.
    apply H. lia.
  - apply IH. intros i Hi. specialize (H (S i)). simpl in H.
    replace (S a + i) with (a + S i) by lia. apply H. lia.
Qed.

Lemma zip_star_eq {A} (d : A) (rows : list (list A)) (k : nat) :
  rows <> [] -> Forall (fun r => length r = k) rows ->
  zip_star d rows = map (fun i => map (fun r => nth i r d) rows) (seq 0 k).
Proof.
  intros Hne Hall. unfold zip_star. rewrite (@list_min_const _ k).
  - reflexivity.
  - destruct rows; simpl; congruence.
  - now apply Forall_map.
Qed.

Lemma rmap_ext_ok {A B} (f : A -> result B) (h : A -> B) (l : list A) :
  Forall (fun x => f x = Ok (h x)) l -> rmap f l = Ok (map h l).
Proof.
  induction 1 as [|x l Hx _ IH]; simpl; [reflexivity|].
  now rewrite Hx, IH.
Qed.

Lemma column_maxima (rows : list (list str)) (k : nat)
  (maxlens : list nat) :
  rows <> [] ->
  Forall (fun r => length r = k) rows ->
  rmap (fun g => py_max (map (@length char) g)) (zip_star [] rows)
    = Ok maxlens ->
  length maxlens = k /\
  Forall (fun r => Forall2 (fun p m => length p <= m) r maxlens) rows.
Proof.
  intros Hne Hall Hmax.
  rewrite (zip_star_eq [] Hne Hall) in Hmax.
  rewrite (@rmap_ext_ok _ _ _ (fun g => list_max (map (@length char) g)))
    in Hmax.
  2:{ apply Forall_map, Forall_forall. intros i _.
      apply py_max_ok. destruct rows; simpl; congruence. }
  injection Hmax as <-. rewrite map_map. split.
  - now rewrite length_map, length_seq.
  - rewrite Forall_forall in *. intros r Hr.
    rewrite <- (Hall r Hr). apply Forall2_map_seq with (d := []).
    intros i _. simpl. apply list_max_bound.
    rewrite map_map. apply in_map_iff. eauto.
Qed.

Lemma none_to_empty_length (g : list (option str)) :
  length (none_to_empty g) = length g.
Proof. apply length_map. Qed.

Lemma select_pattern_flags (dt : np_type) (p : Re.pattern)
  (lj : list bool) :
  select_pattern dt = Ok (p, lj) -> length lj = length p.
Proof.
  unfold select_pattern.
  destruct (issubdtype dt integer);
    [|destruct (issubdtype dt floating);
      [|destruct (issubdtype dt complex128)]];
    intros H; try discriminate; injection H as <- <-; reflexivity.
Qed.

(** ** The entry formatter *)

(** what a successful alignment is made of *)
Lemma align_texts_inv (dt : np_type) (sh : list nat) (texts : list str)
  (res : ndarray str) :
  align_texts dt sh texts = Ok res ->
  exists p lj rg maxlens,
    select_pattern dt = Ok (p, lj) /\
    Forall2 (fun s g => Re.search p s = Some g) texts rg /\
    shape res = sh /\
    length (flat res) = size_of sh /\
    flat res = map (fun g => fmt_entry (none_to_empty g) maxlens lj) rg /\
    (rg <> [] ->
       length maxlens = length p /\
       Forall (fun g => Forall2 (fun part m => length part <= m)
                                (none_to_empty g) maxlens) rg).
Proof.
  unfold align_texts. intros H.
  destruct (select_pattern dt) as [[p lj]|] eqn:Hsel; [|discriminate].
  cbn [rbind fst snd] in H.
  destruct (rmap (search_groups p) texts) as [rg|] eqn:Hrg; [|discriminate].
  cbn [rbind] in H.
  destruct (rmap _ (zip_star [] (map none_to_empty rg)))
    as [maxlens|] eqn:Hmax; [|discriminate].
  cbn [rbind] in H. unfold reshape in H.
  destruct (_ =? size_of sh) eqn:Hsize; [|discriminate].
  injection H as <-. simpl. rewrite map_map.
  exists p, lj, rg, maxlens.
  assert (Hsearch : Forall2 (fun s g => Re.search p s = Some g) texts rg).
  { eapply Forall2_impl; [|apply rmap_forall2; exact Hrg].
    intros s g. unfold search_groups.
    destruct (Re.search p s); congruence. }
  assert (Harity : Forall (fun r => length r = length p)
                          (map none_to_empty rg)).
  { apply Forall_map. clear - Hsearch.
    induction Hsearch as [|s g texts rg Hs _ IH]; constructor; auto.
    rewrite none_to_empty_length. eapply search_arity; eauto. }
  repeat split; auto.
  - apply Nat.eqb_eq in Hsize. rewrite !length_map in *. exact Hsize.
  - destruct (@column_maxima (map none_to_empty rg) (length p) maxlens)
      as [Hk _]; auto.
    destruct rg; simpl; congruence.
  - destruct (@column_maxima (map none_to_empty rg) (length p) maxlens)
      as [_ Hle]; auto.
    + destruct rg; simpl; congruence.
    + now apply Forall_map in Hle.
Qed.

Lemma aligned_column_at (p : Re.pattern) (lj : list bool)
  (rg : list (list (option str))) (maxlens : list nat) (texts : list str)
  (k : nat) (grp : Re.group) (l : list Re.atom) (cs : Re.cset) :
  Forall2 (fun s g => Re.search p s = Some g) texts rg ->
  length lj = length p ->
  (rg <> [] ->
     length maxlens = length p /\
     Forall (fun g => Forall2 (fun part m => length part <= m)
                              (none_to_empty g) maxlens) rg) ->
  nth_error p k = Some grp ->
  Re.optional grp = false ->
  Re.body grp = l ++ [Re.mk_atom cs Re.Once] ->
  nth_error lj k = Some false ->
  Forall2 (fun s e => exists part,
               captured p k s = Some part /\
               last_char_at part (list_sum (firstn (S k) maxlens) - 1) e)
          texts
          (map (fun g => fmt_entry (none_to_empty g) maxlens lj) rg).
Proof.
  intros Hsearch Hlj Hmax Hk Hopt Hbody Hflag.
  destruct rg as [|g0 rg0] eqn:Erg.
  { inversion Hsearch; subst. constructor. }
  destruct Hmax as [Hlen Hle]; [discriminate|].
  rewrite <- Erg in *. clear Erg g0 rg0.
  revert Hle. induction Hsearch as [|s g texts rg Hs _ IH]; intros Hle;
    [constructor|].
  inversion Hle as [|? ? Hg Hle']; subst.
  simpl. constructor; [|now apply IH].
  destruct (@search_point _ _ _ _ _ _ _ Hs Hk Hopt Hbody)
    as (b & c & Hcap & _).
  exists (b ++ [c]). split; [exact Hcap|].
  assert (Hnth : nth_error (none_to_empty g) k = Some (b ++ [c])).
  { unfold captured in Hcap. rewrite Hs in Hcap.
    destruct (nth_error g k) as [[m|]|] eqn:Hgk; try discriminate.
    injection Hcap as ->. unfold none_to_empty.
    now rewrite (map_nth_error _ _ _ Hgk). }
  destruct (@fmt_entry_column k (none_to_empty g) maxlens lj (b ++ [c]))
    as (pre & post & Heq & Hcol); auto; [congruence|].
  exists pre, b, c, post. repeat split; auto.
  rewrite length_app in Hcol. simpl in Hcol. lia.
Qed.

Lemma aligned_column (p : Re.pattern) (lj : list bool)
  (rg : list (list (option str))) (maxlens : list nat) (texts : list str)
  (k : nat) (grp : Re.group) (l : list Re.atom) (cs : Re.cset) :
  Forall2 (fun s g => Re.search p s = Some g) texts rg ->
  length lj = length p ->
  (rg <> [] ->
     length maxlens = length p /\
     Forall (fun g => Forall2 (fun part m => length part <= m)
                              (none_to_empty g) maxlens) rg) ->
  nth_error p k = Some grp ->
  Re.optional grp = false ->
  Re.body grp = l ++ [Re.mk_atom cs Re.Once] ->
  nth_error lj k = Some false ->
  exists col,
    Forall2 (fun s e => exists part,
                 captured p k s = Some part /\ last_char_at part col e)
            texts
            (map (fun g => fmt_entry (none_to_empty g) maxlens lj) rg).
Proof.
  intros Hsearch Hlj Hmax Hk Hopt Hbody Hflag.
  exists (list_sum (firstn (S k) maxlens) - 1).
  eapply aligned_column_at; eauto.
Qed.

Lemma select_pattern_real (dt : np_type) :
  kind_of dt = KReal ->
  select_pattern dt = Ok (Re.pat_floating, [false; true; true]).
Proof. destruct dt; vm_compute; congruence. Qed.

Lemma select_pattern_complex (dt : np_type) (p : Re.pattern)
  (lj : list bool) :
  kind_of dt = KComplex ->
  select_pattern dt = Ok (p, lj) ->
  p = Re.pat_complex /\
  lj = [false; true; true; false; true; true; false].
Proof.
  destruct dt; vm_compute; intros Hk H; try discriminate;
    injection H as <- <-; auto.
Qed.

Lemma select_pattern_other (dt : np_type) :
  kind_of dt = KOther -> select_pattern dt = Raise NotImplementedError.
Proof. destruct dt; vm_compute; congruence. Qed.

Section RenderProperties.

Variable scalar : Type.
Variable array2string : scalar -> Z -> result str.

Local Notation "'calls_of' prec l" :=
  (map (fun x => Array2String x prec) l) (at level 10, prec at level 9).

(** the collaborator answers every entry, or there is a first entry on
    which it raises *)
Lemma collaborator_cases (prec : Z) (l : list scalar) :
  (exists texts, answers array2string prec l texts) \/
  (exists k x e,
     nth_error l k = Some x /\ array2string x prec = Raise e /\
     exists texts, answers array2string prec (firstn k l) texts).
Proof.
  induction l as [|y l IH].
  - left. exists []. constructor.
  - destruct (array2string y prec) as [s|e] eqn:Hy.
    + destruct IH as [(texts & H)|(k & x & e & Hk & Hx & texts & H)].
      * left. exists (s :: texts). now constructor.
      * right. exists (S k), x, e. repeat split; auto.
        exists (s :: texts). now constructor.
    + right. exists 0, y, e. repeat split; auto. exists []. constructor.
Qed.

Lemma answers_functional (prec : Z) (l : list scalar)
  (texts texts' : list str) :
  answers array2string prec l texts ->
  answers array2string prec l texts' ->
  texts = texts'.
Proof.
  intros H. revert texts'.
  induction H as [|x s l texts Hx _ IH]; intros texts' H';
    inversion H'; subst; [reflexivity|].
  f_equal; [congruence | auto].
Qed.

Lemma mmap_calls (prec : Z) (l : list scalar) (texts : list str) :
  answers array2string prec l texts ->
  forall t,
    mmap (call_array2string array2string prec) l t =
      (Ok texts, t ++ calls_of prec l).
Proof.
  induction 1 as [|x s l texts Hx _ IH]; intros t; simpl.
  - unfold ret. now rewrite app_nil_r.
  - unfold bind, call_array2string, emit, lift, ret. simpl.
    rewrite Hx, IH. now rewrite <- app_assoc.
Qed.

Lemma mmap_calls_raise (prec : Z) (l : list scalar) :
  forall k x e texts,
    nth_error l k = Some x ->
    array2string x prec = Raise e ->
    answers array2string prec (firstn k l) texts ->
    forall t,
      mmap (call_array2string array2string prec) l t =
        (Raise e, t ++ calls_of prec (firstn (S k) l)).
Proof.
  induction l as [|y l IH]; intros k x e texts Hk Hx Hans t.
  - destruct k; discriminate.
  - destruct k as [|k]; simpl in Hk.
    + injection Hk as ->. simpl.
      unfold bind, call_array2string, emit, lift. simpl. now rewrite Hx.
    + simpl in Hans. inversion Hans as [|? s ? texts' Hy Hrest]; subst.
      cbn [mmap]. unfold bind at 1.
      unfold call_array2string at 1, bind at 1, emit, lift. simpl.
      rewrite Hy. unfold bind at 1.
      rewrite (IH k x e texts' Hk Hx Hrest _). simpl.
      now rewrite <- app_assoc.
Qed.

(** the formatter asks for every text first, then works on the texts *)
Lemma fmt_entries_eq (prec : Z) (arr : ndarray scalar) (t : trace scalar)
  (texts : list str) :
  answers array2string prec (flat arr) texts ->
  fmt_entries array2string prec arr t =
    (align_texts (dtype arr) (shape arr) texts,
     t ++ calls_of prec (flat arr)).
Proof.
  intros Hans. unfold fmt_entries, bind.
  rewrite (@mmap_calls prec (flat arr) texts Hans).
  unfold lift, align_texts.
  destruct (select_pattern (dtype arr)) as [[p lj]|]; [|reflexivity].
  cbn [rbind fst snd].
  destruct (rmap (search_groups p) _) as [rg|]; [|reflexivity].
  cbn [rbind].
  destruct (rmap _ (zip_star [] (map none_to_empty rg))) as [maxlens|];
    reflexivity.
Qed.

(** a raise of the collaborator ends the formatter there *)
Lemma fmt_entries_collaborator_raise (prec : Z) (arr : ndarray scalar)
  (t : trace scalar) (k : nat) (x : scalar) (e : exn)
  (texts : list str) :
  nth_error (flat arr) k = Some x ->
  array2string x prec = Raise e ->
  answers array2string prec (firstn k (flat arr)) texts ->
  fmt_entries array2string prec arr t =
    (Raise e, t ++ calls_of prec (firstn (S k) (flat arr))).
Proof.
  intros Hk Hx Hans. unfold fmt_entries, bind.
  now rewrite (@mmap_calls_raise prec (flat arr) k x e texts Hk Hx Hans).
Qed.

Lemma fmt_entries_ok_inv (prec : Z) (arr : ndarray scalar)
  (t t' : trace scalar) (res : ndarray str) :
  fmt_entries array2string prec arr t = (Ok res, t') ->
  exists texts,
    answers array2string prec (flat arr) texts /\
    align_texts (dtype arr) (shape arr) texts = Ok res /\
    t' = t ++ calls_of prec (flat arr).
Proof.
  intros H.
  destruct (collaborator_cases prec (flat arr))
    as [(texts & Hans)|(k & x & e & Hk & Hx & texts & Hans)].
  - rewrite (@fmt_entries_eq prec arr t texts Hans) in H.
    injection H as H1 H2.
    eauto.
  - rewrite (@fmt_entries_collaborator_raise prec arr t k x e texts
               Hk Hx Hans) in H.
    discriminate.
Qed.

End RenderProperties.

Lemma Forall2_of_map {A B C} (f : A -> B) (R : B -> C -> Prop)
  (l : list A) (l' : list C) :
  Forall2 R (map f l) l' -> Forall2 (fun x y => R (f x) y) l l'.
Proof.
  revert l'. induction l as [|x l IH]; intros l' H; simpl in H;
    inversion H; subst; constructor; auto.
Qed.

Lemma aligned_lengths (lj : list bool) (maxlens : list nat)
  (rg : list (list (option str))) :
  length lj = length maxlens ->
  Forall (fun g => Forall2 (fun part m => length part <= m)
                           (none_to_empty g) maxlens) rg ->
  Forall (fun e => length e = list_sum maxlens)
         (map (fun g => fmt_entry (none_to_empty g) maxlens lj) rg).
Proof.
  intros Hlj Hle. apply Forall_map.
  eapply Forall_impl; [|exact Hle].
  intros g Hg. now apply fmt_entry_length.
Qed.

(** the alignment returns as soon as the dtype is supported, every text
    has a match and the shape fits *)
Lemma align_texts_returns (dt : np_type) (sh : list nat)
  (texts : list str) (p : Re.pattern) (lj : list bool) :
  select_pattern dt = Ok (p, lj) ->
  Forall (fun s => Re.search p s <> None) texts ->
  length texts = size_of sh ->
  exists res, align_texts dt sh texts = Ok res.
Proof.
  intros Hsel Hmatch Hsize. unfold align_texts. rewrite Hsel.
  cbn [rbind fst snd].
  destruct (@rmap_ok _ _ (search_groups p)
              (fun g => length g = length p) texts)
    as (rg & Hrg & Harity & Hlen).
  { eapply Forall_impl; [|exact Hmatch]. intros s Hs.
    unfold search_groups. destruct (Re.search p s) as [g|] eqn:Hg;
      [|congruence].
    exists g. split; [reflexivity | eapply search_arity; eauto]. }
  rewrite Hrg. cbn [rbind].
  assert (Hmax : exists maxlens,
             rmap (fun g => py_max (map (@length char) g))
                  (zip_star [] (map none_to_empty rg)) = Ok maxlens).
  { destruct rg as [|g rg]; [exists []; reflexivity|].
    rewrite (@zip_star_eq _ [] _ (length p)).
    - eexists. apply rmap_ext_ok with
        (h := fun g => list_max (map (@length char) g)).
      apply Forall_map, Forall_forall. intros i _. apply py_max_ok.
      discriminate.
    - discriminate.
    - apply Forall_map. eapply Forall_impl; [|exact Harity].
      intros g' Hg'. now rewrite none_to_empty_length. }
  destruct Hmax as (maxlens & ->). cbn [rbind]. unfold reshape.
  rewrite !length_map, Hlen, Hsize, Nat.eqb_refl. eauto.
Qed.

(** ** The point of a real number

    For a text made of an optional sign, digits, a point and anything
    after it, the first group of the float pattern is the sign, the digits
    and that very point. *)

Lemma match_star_run (k : Re.cset) (ds : str) (c : char) (rest : str) :
  Forall (fun d => Re.cset_mem d k = true) ds ->
  Re.cset_mem c k = false ->
  exists tl, Re.match_star k (ds ++ c :: rest) = (ds, c :: rest) :: tl.
Proof.
  intros Hds Hc. induction Hds as [|d ds Hd _ [tl IH]]; simpl.
  - rewrite Hc. eauto.
  - rewrite Hd, IH. simpl. eauto.
Qed.

Lemma match_atoms_cons (a : Re.atom) (l : list Re.atom) (s : str) :
  Re.match_atoms (a :: l) s =
    flat_map (fun p1 =>
      map (fun p2 => (fst p1 ++ fst p2, snd p2))
          (Re.match_atoms l (snd p1)))
      (Re.match_atom a s).
Proof. reflexivity. Qed.

Lemma match_atom_plus (k : Re.cset) (c : char) (s : str) :
  Re.cset_mem c k = true ->
  Re.match_atom (Re.mk_atom k Re.Plus) (c :: s)
  = map (Re.cons_fst c) (Re.match_star k s).
Proof. unfold Re.match_atom. simpl. now intros ->. Qed.

Lemma match_atom_once (k : Re.cset) (c : char) (s : str) :
  Re.cset_mem c k = true ->
  Re.match_atom (Re.mk_atom k Re.Once) (c :: s) = [([c], s)].
Proof. unfold Re.match_atom. simpl. now intros ->. Qed.

Lemma match_atom_opt (k : Re.cset) (c : char) (s : str) :
  Re.match_atom (Re.mk_atom k Re.Opt) (c :: s)
  = if Re.cset_mem c k then [([c], s); ([], c :: s)] else [([], c :: s)].
Proof. reflexivity. Qed.

Lemma match_digits_point (ds rest : str) :
  ds <> [] ->
  Forall (fun d => Re.cset_mem d Re.digit = true) ds ->
  exists tl,
    Re.match_atoms [Re.mk_atom Re.digit Re.Plus; Re.mk_atom Re.Any Re.Once]
                   (ds ++ lit "." ++ rest)
    = (ds ++ lit ".", rest) :: tl.
Proof.
  intros Hne Hds. destruct ds as [|d ds]; [congruence|].
  inversion Hds as [|? ? Hd Hds']; subst.
  destruct (@match_star_run Re.digit ds 46%N rest Hds' eq_refl)
    as [tl Hrun].
  change (lit ".") with [46%N].
  rewrite match_atoms_cons. cbn [app].
  rewrite (@match_atom_plus Re.digit d _ Hd), Hrun.
  cbn [map flat_map Re.cons_fst fst snd].
  rewrite match_atoms_cons, (@match_atom_once Re.Any 46%N rest eq_refl).
  cbn [Re.match_atoms flat_map map fst snd app]. eauto.
Qed.

Lemma digit_not_sign (d : char) :
  Re.cset_mem d Re.digit = true -> Re.cset_mem d Re.sign = false.
Proof.
  unfold Re.cset_mem, Re.digit, Re.sign. simpl. intros H.
  apply andb_true_iff in H. destruct H as [Hlo _].
  apply N.leb_le in Hlo.
  destruct (N.eqb_spec d 43); [lia|].
  destruct (N.eqb_spec d 45); [lia|]. reflexivity.
Qed.

Lemma match_int_point (sgn ds rest : str) :
  sgn = [] \/ sgn = lit "+" \/ sgn = lit "-" ->
  ds <> [] ->
  Forall (fun d => Re.cset_mem d Re.digit = true) ds ->
  exists tl,
    Re.match_atoms (Re.body Re.g_int_point) (sgn ++ ds ++ lit "." ++ rest)
    = (sgn ++ ds ++ lit ".", rest) :: tl.
Proof.
  intros Hsgn Hne Hds.
  destruct (@match_digits_point ds rest Hne Hds) as [tl Htl].
  change (Re.body Re.g_int_point)
    with (Re.mk_atom Re.sign Re.Opt
            :: [Re.mk_atom Re.digit Re.Plus; Re.mk_atom Re.Any Re.Once]).
  rewrite match_atoms_cons.
  destruct Hsgn as [->|[->| ->]].
  - destruct ds as [|d ds]; [congruence|].
    inversion Hds as [|? ? Hd _]; subst.
    cbn [app] in *. rewrite match_atom_opt, (@digit_not_sign d Hd).
    cbn [flat_map fst snd]. rewrite Htl.
    cbn [map fst snd app]. eauto.
  - change (lit "+" ++ ds ++ lit "." ++ rest)
      with (43%N :: ds ++ lit "." ++ rest).
    rewrite match_atom_opt.
    change (Re.cset_mem 43%N Re.sign) with true.
    cbn [flat_map fst snd]. rewrite Htl.
    cbn [map fst snd app]. eauto.
  - change (lit "-" ++ ds ++ lit "." ++ rest)
      with (45%N :: ds ++ lit "." ++ rest).
    rewrite match_atom_opt.
    change (Re.cset_mem 45%N Re.sign) with true.
    cbn [flat_map fst snd]. rewrite Htl.
    cbn [map fst snd app]. eauto.
Qed.

Lemma match_star_nonempty (k : Re.cset) (s : str) :
  Re.match_star k s <> [].
Proof.
  destruct s as [|c s]; simpl; [discriminate|].
  destruct (Re.cset_mem c k); [|discriminate].
  intros H. apply app_eq_nil in H. destruct H; discriminate.
Qed.

Lemma match_groups_optional (g : Re.group) (gs : Re.pattern) (s : str) :
  Re.optional g = true ->
  Re.match_groups gs s <> [] ->
  Re.match_groups (g :: gs) s <> [].
Proof.
  intros Hopt Hne H. cbn [Re.match_groups] in H. rewrite Hopt in H.
  apply app_eq_nil in H. destruct H as [_ H].
  apply map_eq_nil in H. contradiction.
Qed.

(** the first way to match a group is the first match of the pattern, as
    long as the rest of the pattern can go on from there *)
Lemma match_groups_first (g : Re.group) (gs : Re.pattern) (s m r : str)
  (tl : list (str * str)) :
  Re.match_atoms (Re.body g) s = (m, r) :: tl ->
  Re.match_groups gs r <> [] ->
  exists caps r' ms,
    Re.match_groups (g :: gs) s = (Some m :: caps, r') :: ms.
Proof.
  intros Hm Hne. cbn [Re.match_groups]. rewrite Hm.
  cbn [flat_map fst snd].
  destruct (Re.match_groups gs r) as [|[caps r'] ms]; [congruence|].
  cbn [map app fst snd]. eauto.
Qed.

Lemma match_dec_exp_nonempty (s : str) :
  Re.match_groups [Re.g_dec; Re.g_exp] s <> [].
Proof.
  destruct (Re.match_star Re.digit s) as [|[m r] tl] eqn:Hstar;
    [now apply match_star_nonempty in Hstar|].
  destruct (@match_groups_first Re.g_dec [Re.g_exp] s (m ++ []) r
              (flat_map (fun p1 => [(fst p1 ++ [], snd p1)]) tl))
    as (caps & r' & ms & Heq).
  - cbn [Re.g_dec Re.body]. rewrite match_atoms_cons.
    unfold Re.match_atom. cbn [Re.at_quant Re.at_set]. rewrite Hstar.
    reflexivity.
  - apply match_groups_optional; [reflexivity | discriminate].
  - rewrite Heq. discriminate.
Qed.

Lemma float_point_captured (sgn ds rest : str) :
  sgn = [] \/ sgn = lit "+" \/ sgn = lit "-" ->
  ds <> [] ->
  Forall (fun d => Re.cset_mem d Re.digit = true) ds ->
  captured Re.pat_floating 0 (sgn ++ ds ++ lit "." ++ rest)
  = Some (sgn ++ ds ++ lit ".").
Proof.
  intros Hsgn Hne Hds.
  destruct (@match_int_point sgn ds rest Hsgn Hne Hds) as [tl Htl].
  destruct (@match_groups_first Re.g_int_point [Re.g_dec; Re.g_exp]
              _ _ _ _ Htl (match_dec_exp_nonempty rest))
    as (caps & r & ms & Hm).
  change (Re.g_int_point :: [Re.g_dec; Re.g_exp])
    with Re.pat_floating in Hm.
  unfold captured.
  assert (Hs : Re.search Re.pat_floating (sgn ++ ds ++ lit "." ++ rest)
               = Some (Some (sgn ++ ds ++ lit ".") :: caps)).
  { destruct (sgn ++ ds ++ lit "." ++ rest);
      cbn [Re.search]; now rewrite Hm. }
  now rewrite Hs.
Qed.

(** the formatter returns on a well-formed grid of a supported dtype all
    of whose entries are answered with a text that has a match *)
Lemma fmt_entries_returns (scalar : Type)
  (array2string : scalar -> Z -> result str) (prec : Z)
  (arr : ndarray scalar) (t : trace scalar) (p : Re.pattern)
  (lj : list bool) (texts : list str) :
  wf_array arr ->
  select_pattern (dtype arr) = Ok (p, lj) ->
  answers array2string prec (flat arr) texts ->
  Forall (fun s => Re.search p s <> None) texts ->
  exists res,
    fmt_entries array2string prec arr t
    = (Ok res, t ++ map (fun x => Array2String x prec) (flat arr)).
Proof.
  intros Hwf Hsel Hans Hmatch.
  rewrite (@fmt_entries_eq _ array2string prec arr t texts Hans).
  destruct (@align_texts_returns (dtype arr) (shape arr) texts p lj)
    as (res & ->); eauto.
  rewrite <- (Forall2_length Hans). exact Hwf.
Qed.

(** X16. When the entry formatter returns, the collaborator has answered
    every entry with a text, the grid returned has the shape of the input
    and all its entries have one and the same length.  Moreover the last
    character of the first capture group (the one the unescaped point of
    the pattern matched, after the integer digits) is in one and the same
    column in every entry of a real or complex grid, and so is the last
    character of the fourth group (after the imaginary digits) in a
    complex grid. *)
Theorem fmt_entries_aligned (scalar : Type)
  (array2string : scalar -> Z -> result str) (prec : Z)
  (arr : ndarray scalar) (t t' : trace scalar) (res : ndarray str) :
  fmt_entries array2string prec arr t = (Ok res, t') ->
  exists texts,
    answers array2string prec (flat arr) texts /\
    shape res = shape arr /\
    length (flat res) = length (flat arr) /\
    (exists n, Forall (fun e => length e = n) (flat res)) /\
    (kind_of (dtype arr) = KReal ->
       exists col,
         Forall2 (fun s e => exists part,
                      captured Re.pat_floating 0 s = Some part /\
                      last_char_at part col e)
                 texts (flat res)) /\
    (kind_of (dtype arr) = KComplex ->
       exists col_re col_im,
         Forall2 (fun s e => exists part,
                      captured Re.pat_complex 0 s = Some part /\
                      last_char_at part col_re e)
                 texts (flat res) /\
         Forall2 (fun s e => exists part,
                      captured Re.pat_complex 3 s = Some part /\
                      last_char_at part col_im e)
                 texts (flat res)).
Proof.
  intros H.
  destruct (fmt_entries_ok_inv _ _ _ _ H) as (texts & Hans & Halign & _).
  exists texts. split; [exact Hans|].
  destruct (align_texts_inv _ _ _ Halign)
    as (p & lj & rg & maxlens & Hsel & Hsearch & Hshape & _ & Hflat & Hmax).
  pose proof (select_pattern_flags _ Hsel) as Hlj.
  split; [exact Hshape|]. rewrite Hflat. split; [|split; [|split]].
  - rewrite length_map, <- (Forall2_length Hsearch).
    symmetry. exact (Forall2_length Hans).
  - exists (list_sum maxlens). destruct rg as [|g0 rg0] eqn:Erg.
    + constructor.
    + rewrite <- Erg in *.
      destruct Hmax as [Hlen Hle]; [subst; discriminate|].
      apply aligned_lengths; congruence.
  - intros Hkind. rewrite (select_pattern_real _ Hkind) in Hsel.
    injection Hsel as <- <-.
    destruct (@aligned_column Re.pat_floating [false; true; true] rg
                maxlens _ 0 Re.g_int_point
                [Re.mk_atom Re.sign Re.Opt; Re.mk_atom Re.digit Re.Plus]
                Re.Any Hsearch)
      as (col & Hcol); auto.
    exists col. exact Hcol.
  - intros Hkind.
    destruct (select_pattern_complex _ Hkind Hsel) as [-> ->].
    destruct (@aligned_column Re.pat_complex
                [false; true; true; false; true; true; false]
                rg maxlens _ 0
                Re.g_int_point
                [Re.mk_atom Re.sign Re.Opt; Re.mk_atom Re.digit Re.Plus]
                Re.Any Hsearch)
      as (col_re & Hre); auto.
    destruct (@aligned_column Re.pat_complex
                [false; true; true; false; true; true; false]
                rg maxlens _ 3
                Re.g_imag_point
                [Re.mk_atom Re.sign Re.Once; Re.mk_atom Re.digit Re.Plus]
                Re.Any Hsearch)
      as (col_im & Him); auto.
    exists col_re, col_im. split; assumption.
Qed.

Lemma fmt_entries_aligned_witness :
  exists texts,
    answers given_float_text 4 [lit "1.5"; lit "-2.25"] texts /\
    exists col,
      Forall2 (fun s e => exists part,
                   captured Re.pat_floating 0 s = Some part /\
                   last_char_at part col e)
              texts [lit " 1.5 "; lit "-2.25"].
Proof.
  destruct (@fmt_entries_aligned str given_float_text 4
              (mk_ndarray float64 [2] [lit "1.5"; lit "-2.25"]) []
              [Array2String (lit "1.5") 4; Array2String (lit "-2.25") 4]
              (mk_ndarray str_ [2] [lit " 1.5 "; lit "-2.25"]) eq_refl)
    as (texts & Hans & _ & _ & _ & Hreal & _).
  exists texts. split; [exact Hans | exact (Hreal eq_refl)].
Defined.

(** C1. The entries of a complex grid do not have their imaginary signs
    in one column.  For [1+2j, 1+12j], which numpy prints as 1.+2.j and
    1.+12.j, the entries are "1. +2.j" and "1.+12.j": the sign is in
    column 3 of the first and in column 2 of the second, while the shape,
    the common length and the columns of the two points are as claimed. *)
Theorem imaginary_sign_not_aligned :
  fmt_entries given_float_text 4
    (mk_ndarray complex128 [2] [lit "1.+2.j"; lit "1.+12.j"]) []
  = (Ok (mk_ndarray str_ [2] [lit "1. +2.j"; lit "1.+12.j"]),
     [Array2String (lit "1.+2.j") 4; Array2String (lit "1.+12.j") 4]) /\
  find 43%N (lit "1. +2.j") = Some 3 /\
  find 43%N (lit "1.+12.j") = Some 2 /\
  ~ (exists col,
       Forall (fun e => find 43%N e = Some col)
              [lit "1. +2.j"; lit "1.+12.j"]) /\
  Forall (fun e => nth_error e 1 = Some 46%N /\ nth_error e 5 = Some 46%N
                   /\ length e = 7)
         [lit "1. +2.j"; lit "1.+12.j"].
Proof.
  repeat split; try reflexivity.
  - intros [col H]. inversion H as [|? ? H1 H']; subst.
    inversion H' as [|? ? H2 _]; subst.
    vm_compute in H1, H2. congruence.
  - repeat constructor.
Qed.

(** ** Failures and the trace *)

Lemma rmap_raise {A B} (f : A -> result B) (l : list A) (e : exn) :
  rmap f l = Raise e -> exists x, In x l /\ f x = Raise e.
Proof.
  induction l as [|x l IH]; simpl; [discriminate|].
  destruct (f x) as [y|e'] eqn:Hx; simpl.
  - destruct (rmap f l) as [ys|e'']; simpl; [discriminate|].
    intros H. destruct IH as (x' & Hin & Hx'); eauto.
  - intros H. injection H as <-. eauto.
Qed.

(** the only [NotImplementedError] of the alignment is the dtype's *)
Lemma align_texts_not_implemented (dt : np_type) (sh : list nat)
  (texts : list str) :
  align_texts dt sh texts = Raise NotImplementedError ->
  select_pattern dt = Raise NotImplementedError.
Proof.
  unfold align_texts.
  destruct (select_pattern dt) as [[p lj]|e] eqn:Hsel;
    [|cbn [rbind]; intros H; injection H as ->; reflexivity].
  cbn [rbind fst snd].
  destruct (rmap (search_groups p) texts) as [rg|e] eqn:Hrg.
  - cbn [rbind].
    destruct (rmap _ (zip_star [] (map none_to_empty rg)))
      as [maxlens|e] eqn:Hmax.
    + cbn [rbind]. unfold reshape. destruct (_ =? _); discriminate.
    + cbn [rbind]. intros H. injection H as ->.
      apply rmap_raise in Hmax. destruct Hmax as (g & _ & Hg).
      unfold py_max in Hg. destruct (map _ g); discriminate.
  - cbn [rbind]. intros H. injection H as ->.
    apply rmap_raise in Hrg. destruct Hrg as (s & _ & Hs).
    unfold search_groups in Hs. destruct (Re.search p s); discriminate.
Qed.

Lemma stdout_app {scalar} (t1 t2 : trace scalar) :
  stdout (t1 ++ t2) = stdout t1 ++ stdout t2.
Proof. unfold stdout. apply flat_map_app. Qed.

Lemma stdout_calls {scalar} (prec : Z) (l : list scalar) :
  stdout (map (fun x => Array2String x prec) l) = [].
Proof. induction l as [|x l IH]; simpl; auto. Qed.

Lemma collaborator_calls_app {scalar} (t1 t2 : trace scalar) :
  collaborator_calls (t1 ++ t2)
  = collaborator_calls t1 ++ collaborator_calls t2.
Proof. unfold collaborator_calls. apply flat_map_app. Qed.

Lemma collaborator_calls_calls {scalar} (prec : Z) (l : list scalar) :
  collaborator_calls (map (fun x => Array2String x prec) l) = l.
Proof. induction l as [|x l IH]; simpl; [|rewrite IH]; auto. Qed.

(** how a run of the formatter went: the collaborator answered every
    entry and the rest was done on the texts, or the collaborator raised
    on some entry and that was the end *)
Lemma fmt_entries_trace (scalar : Type)
  (array2string : scalar -> Z -> result str) (prec : Z)
  (arr : ndarray scalar) (t t' : trace scalar)
  (r : result (ndarray str)) :
  fmt_entries array2string prec arr t = (r, t') ->
  (exists texts,
     answers array2string prec (flat arr) texts /\
     r = align_texts (dtype arr) (shape arr) texts /\
     t' = t ++ map (fun x => Array2String x prec) (flat arr)) \/
  (exists k x e texts,
     nth_error (flat arr) k = Some x /\
     array2string x prec = Raise e /\
     answers array2string prec (firstn k (flat arr)) texts /\
     r = Raise e /\
     t' = t ++ map (fun x => Array2String x prec)
                   (firstn (S k) (flat arr))).
Proof.
  intros H.
  destruct (collaborator_cases array2string prec (flat arr))
    as [(texts & Hans)|(k & x & e & Hk & Hx & texts & Hans)].
  - left. exists texts.
    rewrite (@fmt_entries_eq _ array2string prec arr t texts Hans) in H.
    injection H as <- <-. auto.
  - right. exists k, x, e, texts.
    rewrite (@fmt_entries_collaborator_raise _ array2string prec arr t
               k x e texts Hk Hx Hans) in H.
    injection H as <- <-. auto.
Qed.

Lemma fmt_entries_stdout (scalar : Type)
  (array2string : scalar -> Z -> result str) (prec : Z)
  (arr : ndarray scalar) (t t' : trace scalar)
  (r : result (ndarray str)) :
  fmt_entries array2string prec arr t = (r, t') ->
  stdout t' = stdout t.
Proof.
  intros H.
  destruct (fmt_entries_trace _ _ _ _ H)
    as [(texts & _ & _ & ->)|(k & x & e & texts & _ & _ & _ & _ & ->)];
    now rewrite stdout_app, stdout_calls, app_nil_r.
Qed.

(** C6, amended. A grid whose scalar type is outside numpy's integer,
    floating and complex classes makes the entry formatter fail with the
    unsupported-kind error once the collaborator has answered every
    entry; an integer, real or double-precision complex grid whose
    entries are answered never fails so.  Whenever the formatter fails,
    nothing has been written by then and the entries handed to the
    collaborator are the first ones of the grid, in order; they are all
    of them when the collaborator answered every entry, which is the case
    of the unsupported-kind error. *)
Theorem unsupported_kind_raised (scalar : Type)
  (array2string : scalar -> Z -> result str) (prec : Z)
  (arr : ndarray scalar) (t : trace scalar) :
  (forall texts,
     kind_of (dtype arr) = KOther ->
     answers array2string prec (flat arr) texts ->
     fmt_entries array2string prec arr t
     = (Raise NotImplementedError,
        t ++ map (fun x => Array2String x prec) (flat arr))) /\
  (forall texts,
     kind_of (dtype arr) = KInteger \/ kind_of (dtype arr) = KReal
       \/ dtype arr = complex128 ->
     answers array2string prec (flat arr) texts ->
     fst (fmt_entries array2string prec arr t)
     <> Raise NotImplementedError) /\
  (forall e t',
     fmt_entries array2string prec arr t = (Raise e, t') ->
     stdout t' = stdout t /\
     (exists k,
        collaborator_calls t'
        = collaborator_calls t ++ firstn k (flat arr)) /\
     (forall texts,
        answers array2string prec (flat arr) texts ->
        collaborator_calls t' = collaborator_calls t ++ flat arr)).
Proof.
  split; [|split].
  - intros texts Hkind Hans.
    rewrite (@fmt_entries_eq _ array2string prec arr t texts Hans).
    unfold align_texts. now rewrite (select_pattern_other _ Hkind).
  - intros texts Hkind Hans.
    rewrite (@fmt_entries_eq _ array2string prec arr t texts Hans).
    cbn [fst]. intros Hraise.
    apply align_texts_not_implemented in Hraise.
    revert Hkind Hraise. destruct (dtype arr); vm_compute;
      intros [H|[H|H]]; congruence.
  - intros e t' H. split; [eapply fmt_entries_stdout; eauto|].
    destruct (fmt_entries_trace _ _ _ _ H)
      as [(texts & Hans & _ & ->)
         |(k & x & e' & texts & Hk & Hx & Hans & _ & ->)].
    + split.
      * exists (length (flat arr)).
        now rewrite firstn_all, collaborator_calls_app,
          collaborator_calls_calls.
      * intros texts0 _.
        now rewrite collaborator_calls_app, collaborator_calls_calls.
    + split.
      * exists (S k).
        now rewrite collaborator_calls_app, collaborator_calls_calls.
      * intros texts' Hans'.
        destruct (Forall2_nth_error _ Hans' Hk) as (s & _ & Hs).
        congruence.
Qed.

Lemma unsupported_kind_raised_witness :
  kind_of bool_ = KOther /\
  answers given_text 4 [lit "True"; lit "False"]
          [lit "True"; lit "False"] /\
  fmt_entries given_text 4
    (mk_ndarray bool_ [2] [lit "True"; lit "False"]) []
  = (Raise NotImplementedError,
     [Array2String (lit "True") 4; Array2String (lit "False") 4]).
Proof.
  assert (Hans : answers given_text 4 [lit "True"; lit "False"]
                         [lit "True"; lit "False"])
    by (repeat constructor).
  split; [reflexivity|]. split; [exact Hans|].
  exact (proj1 (unsupported_kind_raised given_text 4
                  (mk_ndarray bool_ [2] [lit "True"; lit "False"]) [])
               _ eq_refl Hans).
Defined.

(** C6, as stated, fails on the order: for the boolean grid [True, False]
    the unsupported-kind error is raised only after both entries have been
    passed to the collaborator. *)
Lemma unsupported_kind_after_entries :
  kind_of bool_ = KOther /\
  fmt_entries given_text 4
    (mk_ndarray bool_ [2] [lit "True"; lit "False"]) []
  = (Raise NotImplementedError,
     [Array2String (lit "True") 4; Array2String (lit "False") 4]) /\
  collaborator_calls
    (snd (fmt_entries given_text 4
            (mk_ndarray bool_ [2] [lit "True"; lit "False"]) []))
  <> collaborator_calls [].
Proof. repeat split; try reflexivity. discriminate. Qed.

(** the wrong class in the complex test: a single-precision complex grid
    is of complex kind and is rejected all the same *)
Lemma complex64_rejected :
  kind_of complex64 = KComplex /\
  select_pattern complex64 = Raise NotImplementedError /\
  kind_of clongdouble = KComplex /\
  select_pattern clongdouble = Raise NotImplementedError.
Proof. repeat split; reflexivity. Qed.

(** C9. Whatever is raised, at whatever stage, nothing has been written
    to the standard output when [parr] aborts. *)
Theorem parr_no_partial_output (scalar : Type)
  (array2string : scalar -> Z -> result str) (arg : pyobj scalar)
  (o : options) (t t' : trace scalar) (e : exn) :
  parr array2string arg o t = (Raise e, t') ->
  stdout t' = stdout t.
Proof.
  destruct arg as [|a]; simpl.
  - unfold raise. intros H. now injection H as _ <-.
  - unfold bind.
    destruct (fmt_entries array2string (max_precision o) a t)
      as [[entries|e1] t1] eqn:Hfmt;
      pose proof (fmt_entries_stdout _ _ _ _ Hfmt) as Hout.
    + unfold lift. destruct (fmt_arr _ _ _ _ _) as [lines|e2].
      * unfold print, emit. discriminate.
      * intros H. now injection H as _ <-.
    + intros H. now injection H as _ <-.
Qed.

Lemma parr_no_partial_output_witness :
  parr given_text
       (NDArray (mk_ndarray bool_ [2] [lit "True"; lit "False"]))
       default_options []
  = (Raise NotImplementedError,
     [Array2String (lit "True") 4; Array2String (lit "False") 4]) /\
  stdout [Array2String (lit "True") 4; Array2String (lit "False") 4]
  = stdout ([] : trace str).
Proof.
  assert (H : parr given_text
                (NDArray (mk_ndarray bool_ [2] [lit "True"; lit "False"]))
                default_options []
              = (Raise NotImplementedError,
                 [Array2String (lit "True") 4;
                  Array2String (lit "False") 4]))
    by reflexivity.
  split; [exact H | exact (parr_no_partial_output _ _ _ _ H)].
Defined.

(** ** A grid of exactly one dimension *)

Lemma rmap_items (dot_odds bracket_inner_1D box_inner_1D : bool)
  (entries : list str) :
  rmap (fmt_arr dot_odds bracket_inner_1D box_inner_1D [])
       (map (fun x => [x]) entries)
  = Ok (map (fun x => [x]) entries).
Proof.
  induction entries as [|x entries IH]; cbn [rmap map]; [reflexivity|].
  now rewrite IH.
Qed.

Lemma pad_singletons (entries : list str) :
  rmap (pad_block 1) (map (fun x => [x]) entries)
  = Ok (map (fun x => [x]) entries).
Proof.
  induction entries as [|x entries IH]; simpl; [reflexivity|].
  now rewrite IH.
Qed.

(** one-line blocks side by side, without spacing: one line, the entries
    one after the other *)
Lemma hstack_row (entries : list str) :
  entries <> [] ->
  hstack (map (fun x => [x]) entries) 0 = Ok [concat entries].
Proof.
  intros Hne. unfold hstack.
  rewrite py_max_ok by (destruct entries; simpl; congruence).
  rewrite (@list_max_const _ 1).
  2:{ destruct entries; simpl; congruence. }
  2:{ rewrite map_map. apply Forall_map, Forall_forall. reflexivity. }
  cbn [rbind]. rewrite pad_singletons. cbn [rbind].
  rewrite (@zip_star_eq _ [] _ 1).
  2:{ destruct entries; simpl; congruence. }
  2:{ apply Forall_map, Forall_forall. reflexivity. }
  simpl. rewrite map_map. simpl. rewrite map_id.
  now rewrite join_empty_sep.
Qed.

Lemma fmt_arr_1d_boxed (dot_odds : bool) (entries : list str) :
  entries <> [] ->
  let w := length (concat entries) in
  fmt_arr dot_odds false true [length entries] entries
  = Ok [top_border dot_odds w; bordered dot_odds (concat entries);
        bottom_border dot_odds w].
Proof.
  intros Hne w.
  change (fmt_arr dot_odds false true [length entries] entries)
    with (fmtted <- rmap (fmt_arr dot_odds false true [])
                         (subarrays (length entries) [] entries) ;;
          st <- hstack fmtted 0 ;; box st dot_odds)%res.
  unfold subarrays. simpl size_of. rewrite chunks_unit, rmap_items.
  cbn [rbind]. rewrite (hstack_row Hne). cbn [rbind].
  assert (Hblock : block_of_width w [concat entries]).
  { split; [discriminate | repeat constructor]. }
  exact (proj1 (box_of_block dot_odds Hblock)).
Qed.

Lemma fmt_arr_1d_bracketed (dot_odds box_inner_1D : bool) (d : nat)
  (entries : list str) :
  fmt_arr dot_odds true box_inner_1D [d] entries
  = Ok [lit "[" ++ join [space] entries ++ lit "]"].
Proof. reflexivity. Qed.

(** what [parr] writes for a grid of exactly one dimension *)
Lemma parr_1d (scalar : Type) (array2string : scalar -> Z -> result str)
  (arr : ndarray scalar) (o : options) (t t' : trace scalar)
  (res : ndarray str) (d : nat) :
  shape arr = [d] ->
  fmt_entries array2string (max_precision o) arr t = (Ok res, t') ->
  (bracket_inner_1D o = false -> 0 < d ->
     let w := length (concat (flat res)) in
     parr array2string (NDArray arr) o t
     = (Ok tt,
        t' ++ [StdoutWrite
                 (join [newline]
                    [top_border (dot_odds o) w;
                     bordered (dot_odds o) (concat (flat res));
                     bottom_border (dot_odds o) w]
                  ++ [newline])])) /\
  (bracket_inner_1D o = true ->
     parr array2string (NDArray arr) o t
     = (Ok tt,
        t' ++ [StdoutWrite
                 ((lit "[" ++ join [space] (flat res) ++ lit "]")
                  ++ [newline])])).
Proof.
  intros Hshape Hfmt.
  assert (Hres : shape res = [d] /\ length (flat res) = d).
  { destruct (fmt_entries_ok_inv _ _ _ _ Hfmt) as (texts & _ & Halign & _).
    destruct (align_texts_inv _ _ _ Halign)
      as (_ & _ & _ & _ & _ & _ & Hsh & Hlen & _).
    rewrite Hshape in *. simpl in Hlen. split; [assumption | lia]. }
  destruct Hres as [Hsh Hlen].
  unfold parr, bind. rewrite Hfmt. unfold ndim. rewrite Hshape, Hsh.
  cbn [length Nat.eqb]. split.
  - intros Hbr Hd. cbv zeta. rewrite Hbr. subst d.
    rewrite fmt_arr_1d_boxed by (destruct (flat res); simpl in *;
                                 [lia | discriminate]).
    reflexivity.
  - intros Hbr. rewrite Hbr. rewrite fmt_arr_1d_bracketed. reflexivity.
Qed.

(** C10. A non-empty grid of exactly one dimension, rendered with the
    default options, is written as one line of entries inside a box drawn
    with the dashed rules: the horizontal ones in the two border lines,
    the vertical ones around the content line. *)
Theorem parr_1d_default_dashed (scalar : Type)
  (array2string : scalar -> Z -> result str) (arr : ndarray scalar)
  (t t' : trace scalar) (res : ndarray str) (d : nat) :
  shape arr = [d] ->
  0 < d ->
  fmt_entries array2string 4 arr t = (Ok res, t') ->
  let w := length (concat (flat res)) in
  parr array2string (NDArray arr) default_options t
  = (Ok tt,
     t' ++ [StdoutWrite
              (join [newline]
                 [c_tl :: repeat h_dots w ++ [c_tr];
                  v_dots :: concat (flat res) ++ [v_dots];
                  c_bl :: repeat h_dots w ++ [c_br]]
               ++ [newline])]).
Proof.
  intros Hshape Hd Hfmt w.
  exact (proj1 (@parr_1d _ array2string arr default_options t t' res d
                  Hshape Hfmt) eq_refl Hd).
Qed.

Lemma parr_1d_default_dashed_witness :
  parr np_int_text (NDArray (mk_ndarray int64 [2] [7%Z; 8%Z]))
       default_options []
  = (Ok tt,
     [Array2String 7%Z 4; Array2String 8%Z 4;
      StdoutWrite
        (join [newline]
           [c_tl :: repeat h_dots 2 ++ [c_tr];
            v_dots :: lit "78" ++ [v_dots];
            c_bl :: repeat h_dots 2 ++ [c_br]]
         ++ [newline])]).
Proof.
  apply (@parr_1d_default_dashed Z np_int_text
           (mk_ndarray int64 [2] [7%Z; 8%Z]) []
           [Array2String 7%Z 4; Array2String 8%Z 4]
           (mk_ndarray str_ [2] [lit "7"; lit "8"]) 2).
  - reflexivity.
  - lia.
  - reflexivity.
Defined.

(** C5. With brackets asked for, a grid of exactly one dimension is not
    boxed, although [box_inner_1D] has been forced on: [-1, 0, 12] is
    written as the one line "[-1  0 12]", with no border line above or
    below it and no rule character in it, whatever the caller's
    [box_inner_1D]; without brackets the same grid is written in a box of
    three lines. *)
Theorem parr_1d_bracketed_not_boxed :
  (forall caller_box,
     parr np_int_text
          (NDArray (mk_ndarray int64 [3] [(-1)%Z; 0%Z; 12%Z]))
          (mk_options 4 true true caller_box) []
     = (Ok tt,
        [Array2String (-1)%Z 4; Array2String 0%Z 4; Array2String 12%Z 4;
         StdoutWrite (lit "[-1  0 12]" ++ [newline])])) /\
  find c_tl (lit "[-1  0 12]" ++ [newline]) = None /\
  find v_dots (lit "[-1  0 12]" ++ [newline]) = None /\
  find v_solid (lit "[-1  0 12]" ++ [newline]) = None /\
  (forall caller_box,
     exists top middle bottom,
       parr np_int_text
            (NDArray (mk_ndarray int64 [3] [(-1)%Z; 0%Z; 12%Z]))
            (mk_options 4 true false caller_box) []
       = (Ok tt,
          [Array2String (-1)%Z 4; Array2String 0%Z 4; Array2String 12%Z 4;
           StdoutWrite (join [newline]
                          [c_tl :: top; v_dots :: middle; c_bl :: bottom]
                        ++ [newline])])).
Proof.
  split; [intros [|]; reflexivity|].
  split; [reflexivity|]. split; [reflexivity|]. split; [reflexivity|].
  intros [|]; eexists _, _, _; reflexivity.
Qed.


(** ** Scenarios *)

(** C4, amended. For the integer grid [-1, 0, 12] and the default options
    the entries are right-justified to width 2 ("-1", " 0", "12"), and
    what is written is three lines: a top border, one line that holds the
    three entries in order between two vertical rules, and a bottom
    border as wide as that line.  How the entries are set apart inside
    the line is left open here. *)
Theorem scenario_integer_row :
  fmt_entries np_int_text 4
    (mk_ndarray int64 [3] [(-1)%Z; 0%Z; 12%Z]) []
  = (Ok (mk_ndarray str_ [3] [lit "-1"; lit " 0"; lit "12"]),
     [Array2String (-1)%Z 4; Array2String 0%Z 4; Array2String 12%Z 4]) /\
  Forall (fun e => length e = 2) [lit "-1"; lit " 0"; lit "12"] /\
  exists gap1 gap2 content : str,
    Forall (fun c => c = space) gap1 /\
    Forall (fun c => c = space) gap2 /\
    content = lit "-1" ++ gap1 ++ lit " 0" ++ gap2 ++ lit "12" /\
    parr np_int_text
         (NDArray (mk_ndarray int64 [3] [(-1)%Z; 0%Z; 12%Z]))
         default_options []
    = (Ok tt,
       [Array2String (-1)%Z 4; Array2String 0%Z 4; Array2String 12%Z 4;
        StdoutWrite
          (join [newline]
             [c_tl :: repeat h_dots (length content) ++ [c_tr];
              v_dots :: content ++ [v_dots];
              c_bl :: repeat h_dots (length content) ++ [c_br]]
           ++ [newline])]).
Proof.
  split; [reflexivity|]. split; [repeat constructor|].
  exists [], [], (lit "-1 012").
  split; [constructor|]. split; [constructor|]. split; reflexivity.
Qed.


(** C4, as stated, fails on the width: the entries are not " -1", "  0"
    and " 12". *)
Lemma scenario_integer_row_not_as_stated :
  ~ (exists res t',
       fmt_entries np_int_text 4
         (mk_ndarray int64 [3] [(-1)%Z; 0%Z; 12%Z]) [] = (Ok res, t') /\
       flat res = [lit " -1"; lit "  0"; lit " 12"]).
Proof.
  intros (res & t' & H & Hflat). vm_compute in H.
  injection H as <- _. vm_compute in Hflat. discriminate.
Qed.


(** C7. The single-entry grids render, but the empty ones do not: with
    the default options the empty grids of shape (0,) and (0, 3) end in
    the [ValueError] of [max] over an empty sequence, the first in the
    horizontal stack and the second in the vertical stack, and nothing is
    written.  The bracket path next to it handles the same empty row. *)
Theorem empty_grid_raises :
  parr np_int_text (NDArray (mk_ndarray int64 [0] [])) default_options []
  = (Raise ValueError, []) /\
  parr np_int_text (NDArray (mk_ndarray int64 [0; 3] [])) default_options []
  = (Raise ValueError, []) /\
  hstack [] 0 = Raise ValueError /\
  vstack [] = Raise ValueError /\
  parr np_int_text (NDArray (mk_ndarray int64 [0] []))
       (mk_options 4 true true false) []
  = (Ok tt, [StdoutWrite (lit "[]" ++ [newline])]) /\
  parr np_int_text (NDArray (mk_ndarray int64 [] [5%Z])) default_options []
  = (Ok tt, [Array2String 5%Z 4; StdoutWrite (lit "5" ++ [newline])]) /\
  parr np_int_text (NDArray (mk_ndarray int64 [1] [5%Z])) default_options []
  = (Ok tt,
     [Array2String 5%Z 4;
      StdoutWrite
        (join [newline]
           [top_border true 1; bordered true (lit "5"); bottom_border true 1]
         ++ [newline])]).
Proof. repeat split; reflexivity. Qed.

(** the empty row fails for every setting of the other options *)
Lemma empty_row_raises (dot_odds box_inner_1D : bool) :
  fmt_arr dot_odds false true [0] [] = Raise ValueError /\
  (box_inner_1D = true ->
   fmt_arr dot_odds false box_inner_1D [2; 0] [] = Raise ValueError).
Proof. split; [reflexivity | intros ->; reflexivity]. Qed.

(** * Further properties of the helpers *)

(** ** Boxes and stacks on arbitrary lines *)

Lemma py_max_raise (l : list nat) (e : exn) :
  py_max l = Raise e -> l = [] /\ e = ValueError.
Proof. destruct l; simpl; intros H; [injection H as <-; auto | discriminate]. Qed.

Lemma box_raise (lines : list str) (dotted : bool) (e : exn) :
  box lines dotted = Raise e -> e = ValueError.
Proof.
  unfold box. intros H.
  destruct (py_max (map (@length char) lines)) as [w|e'] eqn:Hmax;
    cbn [rbind] in H; [discriminate|].
  injection H as <-. now apply py_max_raise in Hmax.
Qed.

(** X1. A box around any lines, ragged or not: no line at all is the
    [ValueError] of [max], and nothing else fails; otherwise the box has
    two lines more than the input and every line of it is two characters
    wider than the widest input line. *)
Theorem box_any_lines (lines : list str) (dotted : bool) :
  (box lines dotted = Raise ValueError <-> lines = []) /\
  (forall e, box lines dotted = Raise e -> e = ValueError) /\
  (lines <> [] ->
   exists out,
     box lines dotted = Ok out /\
     length out = length lines + 2 /\
     Forall (fun l => length l = list_max (map (@length char) lines) + 2)
            out).
Proof.
  split; [split|split].
  - intros H. destruct lines as [|l lines]; [reflexivity|].
    destruct (@box_block (l :: lines) dotted) as (out & Hout & _);
      [discriminate | congruence].
  - intros ->. reflexivity.
  - intros e. apply box_raise.
  - intros Hne.
    destruct (@box_block lines dotted Hne) as (out & Hout & [_ Hall] & Hlen).
    eauto.
Qed.

Lemma box_any_lines_witness :
  exists out,
    box [lit "a"; lit "bcd"; []] false = Ok out /\
    length out = 5 /\
    Forall (fun l => length l = 5) out.
Proof.
  destruct (proj2 (proj2 (box_any_lines [lit "a"; lit "bcd"; []] false)))
    as (out & Hout & Hlen & Hall); [discriminate|].
  exists out. auto.
Defined.

Lemma concat_equal_width (W : nat) (blocks : list (list str)) :
  Forall (Forall (fun l => length l = W)) blocks ->
  Forall (fun l => length l = W) (concat blocks).
Proof.
  induction 1 as [|b blocks Hb _ IH]; simpl; [constructor|].
  apply Forall_app. auto.
Qed.

Lemma length_concat_sum {A} (blocks : list (list A)) :
  length (concat blocks) = list_sum (map (@length A) blocks).
Proof.
  induction blocks as [|b blocks IH]; simpl; [reflexivity|].
  now rewrite length_app, IH.
Qed.

Lemma map_ljust_exact (W : nat) (lines : list str) :
  Forall (fun l => length l = W) lines ->
  map (fun l => ljust l W) lines = lines.
Proof.
  induction 1 as [|l lines Hl _ IH]; simpl; [reflexivity|].
  now rewrite IH, ljust_exact.
Qed.

Lemma vstack_raise (blocks : list (list str)) (e : exn) :
  vstack blocks = Raise e -> e = ValueError.
Proof.
  unfold vstack. intros H.
  destruct (py_max _) as [w|e'] eqn:Hmax; cbn [rbind] in H;
    [discriminate|].
  injection H as <-. now apply py_max_raise in Hmax.
Qed.

Lemma vstack_equal_width (W : nat) (blocks : list (list str)) :
  concat blocks <> [] ->
  Forall (Forall (fun l => length l = W)) blocks ->
  vstack blocks = Ok (concat blocks).
Proof.
  intros Hne Hall. destruct (@vstack_block blocks Hne) as [Hv _].
  rewrite Hv. f_equal.
  pose proof (@concat_equal_width W blocks Hall) as Hw.
  rewrite (@list_max_const _ W).
  - now apply map_ljust_exact.
  - destruct (concat blocks); simpl; congruence.
  - now apply Forall_map.
Qed.

(** X2. The vertical stack fails, with [ValueError], exactly when the
    blocks have no line between them.  Otherwise it returns all the lines
    in order, each padded on the right to the widest, so as many lines as
    the blocks have together; blocks that already share one width come
    back unchanged, one under the other. *)
Theorem vstack_lines (blocks : list (list str)) :
  (vstack blocks = Raise ValueError <-> concat blocks = []) /\
  (forall e, vstack blocks = Raise e -> e = ValueError) /\
  (concat blocks <> [] ->
   let w := list_max (map (@length char) (concat blocks)) in
   vstack blocks = Ok (map (fun l => ljust l w) (concat blocks)) /\
   length (map (fun l => ljust l w) (concat blocks))
   = list_sum (map (@length str) blocks) /\
   Forall (fun l => length l = w)
          (map (fun l => ljust l w) (concat blocks))) /\
  (forall W,
     concat blocks <> [] ->
     Forall (Forall (fun l => length l = W)) blocks ->
     vstack blocks = Ok (concat blocks)).
Proof.
  split; [split|split; [|split]].
  - intros H. destruct (concat blocks) as [|l ls] eqn:Hc; [reflexivity|].
    destruct (@vstack_block blocks) as [Hv _]; [congruence|].
    congruence.
  - intros Hc. unfold vstack. now rewrite Hc.
  - intros e. apply vstack_raise.
  - intros Hne w. destruct (@vstack_block blocks Hne) as [Hv [_ Hall]].
    split; [exact Hv|]. split; [|exact Hall].
    now rewrite length_map, length_concat_sum.
  - intros W. apply vstack_equal_width.
Qed.

Lemma vstack_lines_witness :
  vstack [[lit "ab"; lit "cd"]; [lit "ef"]]
  = Ok [lit "ab"; lit "cd"; lit "ef"].
Proof.
  apply (proj2 (proj2 (proj2
           (vstack_lines [[lit "ab"; lit "cd"]; [lit "ef"]]))) 2).
  - discriminate.
  - repeat constructor.
Defined.

Lemma rmap_ok_inv {A B} (f : A -> result B) (l : list A) (ys : list B) :
  rmap f l = Ok ys -> Forall (fun x => exists y, f x = Ok y) l.
Proof.
  intros H. apply rmap_forall2 in H.
  induction H as [|x y l ys Hxy _ IH]; constructor; eauto.
Qed.

Lemma hstack_cases (blocks : list (list str)) (spacing : Z) :
  (blocks = [] /\ hstack blocks spacing = Raise ValueError) \/
  (blocks <> [] /\ In [] blocks /\
   hstack blocks spacing = Raise IndexError) \/
  (blocks <> [] /\ ~ In [] blocks /\
   exists out, hstack blocks spacing = Ok out).
Proof.
  destruct blocks as [|b0 blocks]; [left; auto|]. right.
  set (bs := b0 :: blocks).
  assert (Hne : bs <> []) by discriminate.
  destruct (in_dec (list_eq_dec (list_eq_dec N.eq_dec)) [] bs)
    as [Hin|Hnin].
  - left. split; [exact Hne|]. split; [exact Hin|].
    unfold hstack. rewrite py_max_ok by discriminate. cbn [rbind].
    destruct (rmap _ bs) as [bs'|e] eqn:Hpad.
    + apply rmap_ok_inv in Hpad. rewrite Forall_forall in Hpad.
      destruct (Hpad [] Hin) as (y & Hy). discriminate.
    + apply rmap_raise in Hpad. destruct Hpad as (b & _ & Hb).
      destruct b; simpl in Hb; [injection Hb as <-; reflexivity
                               | discriminate].
  - right. split; [exact Hne|]. split; [exact Hnin|].
    destruct (@hstack_height bs spacing Hne) as (out & Hout & _).
    + apply Forall_forall. intros b Hb ->. contradiction.
    + eauto.
Qed.

(** X3. How the horizontal stack fails: with the [ValueError] of [max]
    exactly when there is no block, with the [IndexError] of [b[0]]
    exactly when there are blocks and one of them has no line, and in no
    other way; it returns exactly when there are blocks and every one has
    a line. *)
Theorem hstack_failures (blocks : list (list str)) (spacing : Z) :
  (hstack blocks spacing = Raise ValueError <-> blocks = []) /\
  (hstack blocks spacing = Raise IndexError
   <-> blocks <> [] /\ In [] blocks) /\
  ((exists out, hstack blocks spacing = Ok out)
   <-> blocks <> [] /\ ~ In [] blocks) /\
  (forall e, hstack blocks spacing = Raise e ->
             e = ValueError \/ e = IndexError).
Proof.
  destruct (hstack_cases blocks spacing)
    as [[Hnil H]|[(Hne & Hin & H)|(Hne & Hnin & out & H)]];
    rewrite H; repeat split;
    try (intros; discriminate);
    try (intros; congruence);
    try (intros [? ?]; first [discriminate | congruence | contradiction]);
    eauto.
  all: try (match goal with
            | H0 : exists _, Raise _ = Ok _ |- _ =>
                destruct H0; discriminate
            end).
  all: intros e He; injection He as <-; auto.
Qed.

Lemma join_length (sep : str) (l : list str) :
  length (join sep l)
  = list_sum (map (@length char) l) + length sep * (length l - 1).
Proof.
  induction l as [|x [|y r] IH].
  - simpl. lia.
  - simpl. lia.
  - change (join sep (x :: y :: r)) with (x ++ sep ++ join sep (y :: r)).
    rewrite !length_app, IH.
    change (list_sum (map (@length char) (x :: y :: r)))
      with (length x + list_sum (map (@length char) (y :: r))).
    replace (length (y :: r) - 1) with (length r) by (simpl; lia).
    replace (length (x :: y :: r) - 1) with (S (length r))
      by (simpl; lia).
    rewrite (Nat.mul_succ_r (length sep) (length r)). lia.
Qed.

Lemma str_mul_length (c : char) (n : Z) :
  length (str_mul [c] n) = Z.to_nat n.
Proof.
  unfold str_mul. induction (Z.to_nat n) as [|k IH]; simpl; auto.
Qed.

Lemma rmap_ok2 {A B C} (f : A -> result B) (P : B -> C -> Prop)
  (l : list A) (ws : list C) :
  Forall2 (fun x w => exists y, f x = Ok y /\ P y w) l ws ->
  exists ys, rmap f l = Ok ys /\ Forall2 P ys ws.
Proof.
  induction 1 as [|x w l ws Hx _ IH]; simpl.
  - exists []. auto.
  - destruct Hx as (y & Hy & Py). destruct IH as (ys & Hys & Pys).
    exists (y :: ys). rewrite Hy, Hys. simpl. auto.
Qed.

Lemma pad_block_rect (h w : nat) (b : list str) :
  block_of_width w b -> length b <= h ->
  exists b',
    pad_block h b = Ok b' /\
    length b' = h /\ Forall (fun l => length l = w) b'.
Proof.
  intros [Hne Hall] Hle. destruct b as [|b0 b]; [congruence|].
  eexists. split; [reflexivity|]. split.
  - rewrite length_app, repeat_length. lia.
  - apply Forall_app. split; [exact Hall|].
    apply Forall_forall. intros l Hl. apply repeat_spec in Hl. subst l.
    rewrite str_mul_char, repeat_length.
    now inversion Hall.
Qed.

Lemma line_widths (h i : nat) (blocks : list (list str)) (ws : list nat) :
  Forall2 (fun b w => length b = h /\ Forall (fun l => length l = w) b)
          blocks ws ->
  i < h ->
  map (@length char) (map (fun r => nth i r []) blocks) = ws.
Proof.
  intros H Hi. induction H as [|b w blocks ws [Hh Hw] _ IH]; simpl;
    [reflexivity|].
  rewrite IH. f_equal. rewrite Forall_forall in Hw. apply Hw.
  apply nth_In. lia.
Qed.

Lemma hstack_rect (blocks : list (list str)) (ws : list nat)
  (spacing : Z) :
  blocks <> [] ->
  Forall2 (fun b w => block_of_width w b) blocks ws ->
  exists out,
    hstack blocks spacing = Ok out /\
    length out = list_max (map (@length str) blocks) /\
    Forall (fun l => length l
                     = list_sum ws + Z.to_nat spacing * (length blocks - 1))
           out.
Proof.
  intros Hne Hrect. unfold hstack.
  rewrite py_max_ok by (destruct blocks; simpl; congruence).
  cbn [rbind]. set (h := list_max (map (@length str) blocks)).
  destruct (@rmap_ok2 _ _ _ (pad_block h)
              (fun b' w => length b' = h
                           /\ Forall (fun l => length l = w) b')
              blocks ws) as (blocks' & Hpad & Hrect').
  { assert (Hle : Forall (fun b => length b <= h) blocks).
    { apply Forall_forall. intros b Hb.
      apply list_max_bound, in_map_iff. eauto. }
    clearbody h. clear Hne.
    induction Hrect as [|b w blocks0 ws0 Hb _ IH]; constructor.
    - inversion Hle; subst. now apply pad_block_rect.
    - apply IH. now inversion Hle. }
  rewrite Hpad. cbn [rbind].
  assert (Hlen' : length blocks' = length blocks).
  { rewrite (Forall2_length Hrect'). symmetry.
    exact (Forall2_length Hrect). }
  assert (Hh : Forall (fun b' => length b' = h) blocks').
  { clear - Hrect'. induction Hrect' as [|? ? ? ? [? _] _ IH];
      constructor; auto. }
  rewrite (@zip_star_eq _ [] blocks' h);
    [| destruct blocks, blocks'; simpl in *; congruence | exact Hh].
  eexists. split; [reflexivity|]. split.
  - now rewrite !length_map, length_seq.
  - rewrite map_map. apply Forall_map, Forall_forall.
    intros i Hi. apply in_seq in Hi.
    rewrite join_length, (@line_widths h i blocks' ws Hrect') by lia.
    rewrite str_mul_length, length_map.
    do 3 f_equal. exact Hlen'.
Qed.


Lemma str_mul_space (n : Z) : str_mul [space] n = repeat space (Z.to_nat n).
Proof.
  unfold str_mul. induction (Z.to_nat n) as [|k IH]; simpl;
    [reflexivity | now rewrite IH].
Qed.

Lemma nth_filled (h i : nat) (b : list str) (blank : str) :
  length b <= h -> i < h ->
  nth i (b ++ repeat blank (h - length b)) [] = nth i b blank.
Proof.
  intros Hle Hi. destruct (Nat.lt_ge_cases i (length b)) as [Hlt|Hge].
  - rewrite app_nth1 by exact Hlt. apply nth_indep. exact Hlt.
  - rewrite app_nth2 by exact Hge.
    rewrite (nth_overflow b blank) by exact Hge.
    rewrite (@nth_indep _ _ _ [] blank) by (rewrite repeat_length; lia).
    apply nth_repeat.
Qed.

(** the lines of a horizontal stack: line [i] joins the [i]-th lines of
    the blocks, a block that has no such line giving blanks as wide as its
    first line *)
Lemma hstack_lines (blocks : list (list str)) (spacing : Z) :
  blocks <> [] ->
  Forall (fun b => b <> []) blocks ->
  hstack blocks spacing
  = Ok (map (fun i =>
               join (repeat space (Z.to_nat spacing))
                    (map (fun b => nth i b (repeat space
                                              (length (hd [] b))))
                         blocks))
            (seq 0 (list_max (map (@length str) blocks)))).
Proof.
  intros Hne Hall. unfold hstack.
  rewrite py_max_ok by (destruct blocks; simpl; congruence).
  cbn [rbind]. set (h := list_max (map (@length str) blocks)).
  assert (Hle : Forall (fun b => length b <= h) blocks).
  { apply Forall_forall. intros b Hb.
    apply list_max_bound, in_map_iff. eauto. }
  rewrite (@rmap_ext_ok _ _ (pad_block h)
             (fun b => b ++ repeat (repeat space (length (hd [] b)))
                                   (h - length b)) blocks).
  2:{ eapply Forall_impl; [|exact Hall]. intros b Hb.
      destruct b as [|b0 b]; [congruence|].
      unfold pad_block. now rewrite str_mul_char. }
  cbn [rbind].
  rewrite (@zip_star_eq _ [] _ h).
  - rewrite str_mul_space. f_equal. rewrite map_map.
    apply map_ext_in. intros i Hi. apply in_seq in Hi.
    f_equal. rewrite map_map. apply map_ext_in. intros b Hb.
    rewrite Forall_forall in Hle. apply nth_filled; [now apply Hle | lia].
  - destruct blocks; simpl; congruence.
  - apply Forall_map. eapply Forall_impl; [|exact Hle].
    intros b Hb. cbv beta in *. rewrite length_app, repeat_length.
    unfold str, char in *. lia.
Qed.

(** X4. The horizontal stack of blocks that are each a rectangle, of
    widths [ws].  It has as many lines as the tallest block has, at least
    one.  Line [i] is the [i]-th lines of the blocks, in order, joined by
    [spacing] spaces; a block that is too short to have an [i]-th line
    gives a blank line as wide as its first line.  So the result is a
    rectangle again, every line as long as the widths together plus the
    spacing between neighbours. *)
Theorem hstack_size (blocks : list (list str)) (ws : list nat)
  (spacing : Z) :
  blocks <> [] ->
  Forall2 (fun b w => block_of_width w b) blocks ws ->
  let h := list_max (map (@length str) blocks) in
  let line := fun i =>
    join (repeat space (Z.to_nat spacing))
         (map (fun b => nth i b (repeat space (length (hd [] b))))
              blocks) in
  hstack blocks spacing = Ok (map line (seq 0 h)) /\
  0 < h /\
  length (map line (seq 0 h)) = h /\
  block_of_width
    (list_sum ws + Z.to_nat spacing * (length blocks - 1))
    (map line (seq 0 h)).
Proof.
  intros Hne Hrect h line.
  assert (Hall : Forall (fun b => b <> []) blocks).
  { clear - Hrect. induction Hrect as [|b w bs ws' [Hb _] _ IH];
      constructor; auto. }
  pose proof (@hstack_lines blocks spacing Hne Hall) as Hlines.
  fold h in Hlines. fold line in Hlines.
  destruct (@hstack_rect blocks ws spacing Hne Hrect)
    as (out & Hout & Hlen & Hwidth).
  rewrite Hlines in Hout. injection Hout as <-.
  assert (Hpos : 0 < h).
  { unfold h. destruct Hrect as [|b w bs ws' [Hb _] _]; [congruence|].
    assert (length b <= list_max (map (@length str) (b :: bs)))
      by (apply list_max_bound; simpl; auto).
    destruct b; [congruence | simpl in *; lia]. }
  split; [exact Hlines|]. split; [exact Hpos|].
  split; [now rewrite length_map, length_seq|].
  split; [|exact Hwidth].
  intros Hnil. apply (f_equal (@length str)) in Hnil.
  rewrite length_map, length_seq in Hnil. simpl in Hnil. lia.
Qed.


Lemma hstack_size_witness :
  hstack [[lit "ab"; lit "cd"]; [lit "xyz"]] 1
  = Ok [lit "ab xyz"; lit "cd    "] /\
  block_of_width 6 [lit "ab xyz"; lit "cd    "].
Proof.
  destruct (@hstack_size [[lit "ab"; lit "cd"]; [lit "xyz"]] [2; 3] 1)
    as (Hout & _ & _ & Hblock).
  - discriminate.
  - repeat constructor; discriminate.
  - split; [exact Hout | exact Hblock].
Defined.


(** ** What the layout engine raises, and the size of what it returns *)

Lemma box_ok_nonempty (lines out : list str) (dotted : bool) :
  box lines dotted = Ok out -> out <> [].
Proof.
  unfold box. destruct (py_max _) as [w|e]; cbn [rbind]; [|discriminate].
  intros H. injection H as <-. discriminate.
Qed.

Lemma fmt_arr_ok_nonempty (dot_odds bracket_inner_1D box_inner_1D : bool)
  (sh : list nat) (entries lines : list str) :
  fmt_arr dot_odds bracket_inner_1D box_inner_1D sh entries = Ok lines ->
  lines <> [].
Proof.
  destruct sh as [|d rest]; cbn [fmt_arr].
  - destruct (item entries); cbn [rbind]; intros H; [|discriminate].
    injection H as <-. discriminate.
  - destruct (bracket_inner_1D && _);
      [intros H; injection H as <-; discriminate|].
    destruct (negb box_inner_1D && _);
      [intros H; injection H as <-; discriminate|].
    destruct (rmap _ _) as [fmtted|e]; cbn [rbind]; [|discriminate].
    destruct (Nat.even _).
    + destruct (vstack fmtted) as [st|e]; cbn [rbind]; [|discriminate].
      apply box_ok_nonempty.
    + destruct (hstack fmtted 0) as [st|e]; cbn [rbind]; [|discriminate].
      apply box_ok_nonempty.
Qed.

Lemma fmt_arr_raise (dot_odds bracket_inner_1D box_inner_1D : bool)
  (sh : list nat) :
  forall entries e,
    fmt_arr dot_odds bracket_inner_1D box_inner_1D sh entries = Raise e ->
    e = ValueError.
Proof.
  induction sh as [|d rest IH]; intros entries e; cbn [fmt_arr].
  - destruct entries as [|x [|y entries]]; simpl; intros H;
      try discriminate; now injection H as <-.
  - destruct (bracket_inner_1D && _); [discriminate|].
    destruct (negb box_inner_1D && _); [discriminate|].
    destruct (rmap _ _) as [fmtted|e'] eqn:Hf; cbn [rbind].
    2:{ intros H. injection H as ->.
        apply rmap_raise in Hf. destruct Hf as (c & _ & Hc).
        eapply IH; eauto. }
    assert (Hne : Forall (fun b => b <> []) fmtted).
    { apply rmap_forall2 in Hf. clear - Hf.
      induction Hf as [|c b cs bs Hcb _ IHf]; constructor; auto.
      eapply fmt_arr_ok_nonempty; eauto. }
    destruct (Nat.even _).
    + destruct (vstack fmtted) as [st|e'] eqn:Hv; cbn [rbind].
      * apply box_raise.
      * intros H. injection H as ->.
        now apply (@vstack_raise fmtted).
    + destruct (hstack fmtted 0) as [st|e'] eqn:Hh; cbn [rbind].
      * apply box_raise.
      * intros H. injection H as ->.
        destruct (hstack_cases fmtted 0)
          as [[_ H']|[(_ & Hin & _)|(_ & _ & out & H')]];
          try congruence.
        rewrite Forall_forall in Hne. now destruct (Hne [] Hin).
Qed.

(** X5. The layout engine raises nothing but [ValueError]: the blocks it
    stacks always have a line, so the [IndexError] of the horizontal stack
    cannot happen.  On a grid with as many entries as its shape says, it
    raises only if some dimension is 0. *)
Theorem fmt_arr_failures (dot_odds bracket_inner_1D box_inner_1D : bool)
  (sh : list nat) (entries : list str) (e : exn) :
  fmt_arr dot_odds bracket_inner_1D box_inner_1D sh entries = Raise e ->
  e = ValueError /\
  (length entries = size_of sh -> In 0 sh).
Proof.
  intros H. split; [eapply fmt_arr_raise; eauto|].
  intros Hlen.
  destruct (in_dec Nat.eq_dec 0 sh) as [Hin|Hnin]; [exact Hin|].
  exfalso.
  assert (Hpos : nonempty_shape sh).
  { apply Forall_forall. intros d Hd.
    destruct d; [contradiction | lia]. }
  destruct (fmt_arr_block dot_odds bracket_inner_1D box_inner_1D
              entries Hpos Hlen) as (lines & w & Hok & _).
  congruence.
Qed.

Lemma fmt_arr_failures_witness :
  ValueError = ValueError /\
  (length (@nil str) = size_of [2; 0; 3] -> In 0 [2; 0; 3]).
Proof.
  apply (@fmt_arr_failures true false true [2; 0; 3] [] ValueError).
  reflexivity.
Defined.

Lemma firstn_forall {A} (P : A -> Prop) (n : nat) (l : list A) :
  Forall P l -> Forall P (firstn n l).
Proof.
  intros H. revert n. induction H as [|x l Hx _ IH]; intros [|n]; simpl;
    constructor; auto.
Qed.

Lemma skipn_forall {A} (P : A -> Prop) (n : nat) (l : list A) :
  Forall P l -> Forall P (skipn n l).
Proof.
  intros H. revert n. induction H as [|x l Hx Hl IH]; intros [|n]; simpl;
    auto.
Qed.

Lemma chunks_forall {A} (P : A -> Prop) (n d : nat) (l : list A) :
  Forall P l -> Forall (Forall P) (chunks n d l).
Proof.
  revert l. induction d as [|d IH]; intros l Hl; simpl; constructor.
  - now apply firstn_forall.
  - apply IH. now apply skipn_forall.
Qed.

Lemma list_sum_const (w : nat) (l : list nat) :
  Forall (fun k => k = w) l -> list_sum l = length l * w.
Proof.
  induction 1 as [|k l Hk _ IH]; simpl; [reflexivity|]. subst. lia.
Qed.

Lemma join_row_length (w : nat) (entries : list str) :
  Forall (fun e => length e = w) entries ->
  length (join [space] entries)
  = length entries * w + (length entries - 1).
Proof.
  intros Hw. rewrite join_length, (@list_sum_const w).
  - rewrite length_map. change (length [space]) with 1.
    rewrite Nat.mul_1_l. reflexivity.
  - now apply Forall_map.
Qed.

Lemma Forall2_const {A B} (P : A -> B -> Prop) (l : list A) (w : B) :
  Forall (fun x => P x w) l -> Forall2 P l (repeat w (length l)).
Proof. induction 1; simpl; constructor; auto. Qed.

Lemma list_sum_repeat (w n : nat) : list_sum (repeat w n) = n * w.
Proof. induction n as [|n IH]; simpl; [reflexivity | lia]. Qed.

(** X6. The size of the rendering.  For a grid without a zero dimension
    whose entries all have width [w], the layout engine returns a block
    whose height and width are those of [block_size]: a row takes its
    entries and the spaces between them (two more for brackets), an even
    level piles its sub-blocks up and an odd level puts them side by side,
    and every box adds two lines and two columns. *)
Theorem fmt_arr_size (dot_odds bracket_inner_1D box_inner_1D : bool)
  (w : nat) (sh : list nat) :
  forall entries : list str,
    nonempty_shape sh ->
    length entries = size_of sh ->
    Forall (fun e => length e = w) entries ->
    exists lines,
      fmt_arr dot_odds bracket_inner_1D box_inner_1D sh entries = Ok lines /\
      length lines
      = fst (block_size bracket_inner_1D box_inner_1D w sh) /\
      Forall (fun l => length l
                       = snd (block_size bracket_inner_1D box_inner_1D w sh))
             lines.
Proof.
  induction sh as [|d rest IH]; intros entries Hpos Hlen Hw.
  - destruct entries as [|x [|y entries]]; simpl in Hlen; try discriminate.
    exists [x]. inversion Hw; subst. simpl. auto.
  - inversion Hpos as [|? ? Hd Hrest]; subst.
    cbn [fmt_arr block_size].
    destruct (bracket_inner_1D && (length (d :: rest) =? 1)) eqn:Hbr.
    { eexists. split; [reflexivity|].
      apply andb_true_iff in Hbr. destruct Hbr as [_ H1].
      apply Nat.eqb_eq in H1. destruct rest; [|discriminate].
      simpl in Hlen. rewrite Nat.mul_1_r in Hlen.
      split; [reflexivity|]. repeat constructor. cbn [fst snd].
      rewrite !length_app, (join_row_length Hw).
      unfold str, char in *. rewrite Hlen. simpl. lia. }
    destruct (negb box_inner_1D && (length (d :: rest) =? 1)) eqn:Hbx.
    { eexists. split; [reflexivity|].
      apply andb_true_iff in Hbx. destruct Hbx as [_ H1].
      apply Nat.eqb_eq in H1. destruct rest; [|discriminate].
      simpl in Hlen. rewrite Nat.mul_1_r in Hlen.
      split; [reflexivity|]. repeat constructor. cbn [fst snd].
      rewrite (join_row_length Hw).
      unfold str, char in *. now rewrite Hlen. }
    set (hw := block_size bracket_inner_1D box_inner_1D w rest).
    destruct (@rmap_ok _ _
                (fmt_arr dot_odds bracket_inner_1D box_inner_1D rest)
                (fun b => length b = fst hw
                          /\ Forall (fun l => length l = snd hw) b)
                (subarrays d rest entries))
      as (fmtted & Hf & Hsz & Hcount).
    { pose proof (subarrays_sizes d rest entries Hlen) as Hsizes.
      pose proof (chunks_forall (size_of rest) d Hw) as Hws.
      fold (subarrays d rest entries) in Hws.
      rewrite Forall_forall in Hsizes, Hws |- *. intros c Hc.
      destruct (IH c Hrest (Hsizes c Hc) (Hws c Hc))
        as (b & Hb & Hh & Hwd).
      eauto. }
    rewrite Hf. cbn [rbind].
    unfold subarrays in Hcount. rewrite chunks_length in Hcount.
    assert (Hh0 : 0 < fst hw).
    { destruct fmtted as [|b fmtted]; [simpl in Hcount; lia|].
      inversion Hsz as [|? ? [Hb _] _]; subst.
      pose proof (rmap_forall2 _ _ Hf) as H2.
      assert (Hin : exists c, fmt_arr dot_odds bracket_inner_1D
                                box_inner_1D rest c = Ok b).
      { inversion H2; subst; eauto. }
      destruct Hin as (c & Hc). apply fmt_arr_ok_nonempty in Hc.
      destruct b; [congruence | simpl in Hb; lia]. }
    assert (Hne : fmtted <> []) by (destruct fmtted; simpl in *;
                                    [lia | discriminate]).
    destruct (Nat.even (length (d :: rest))).
    + assert (Hcat : concat fmtted <> []).
      { destruct fmtted as [|b fmtted]; [congruence|].
        inversion Hsz as [|? ? [Hb _] _]; subst.
        destruct b; [simpl in Hb; lia | discriminate]. }
      assert (Heqw : Forall (Forall (fun l => length l = snd hw)) fmtted).
      { eapply Forall_impl; [|exact Hsz]. now intros b [_ H]. }
      rewrite (@vstack_equal_width (snd hw) fmtted Hcat Heqw).
      cbn [rbind].
      assert (Hblock : block_of_width (snd hw) (concat fmtted)).
      { split; [exact Hcat | now apply concat_equal_width]. }
      destruct (box_of_block false Hblock) as [Hbox [_ Hall]].
      rewrite Hbox. eexists. split; [reflexivity|]. split; [|exact Hall].
      cbn [fst snd length]. rewrite length_app, length_map.
      rewrite length_concat_sum, (@list_sum_const (fst hw)).
      * rewrite length_map, Hcount. simpl. lia.
      * apply Forall_map. eapply Forall_impl; [|exact Hsz].
        now intros b [H _].
    + destruct (@hstack_rect fmtted (repeat (snd hw) (length fmtted)) 0 Hne)
        as (st & Hst & Hsth & Hstw).
      { apply Forall2_const. eapply Forall_impl; [|exact Hsz].
        intros b [Hb Hwd]. split; [|exact Hwd].
        destruct b; [simpl in Hb; lia | discriminate]. }
      rewrite Hst. cbn [rbind].
      rewrite list_sum_repeat, Hcount in Hstw. simpl in Hstw.
      rewrite Nat.add_0_r in Hstw.
      assert (Hblock : block_of_width (d * snd hw) st).
      { split; [|exact Hstw].
        intros ->. simpl in Hsth.
        rewrite (@list_max_const _ (fst hw)) in Hsth; [lia| |].
        - destruct fmtted; simpl; congruence.
        - apply Forall_map. eapply Forall_impl; [|exact Hsz].
          now intros b [H _]. }
      destruct (box_of_block dot_odds Hblock) as [Hbox [_ Hall]].
      rewrite Hbox. eexists. split; [reflexivity|]. split; [|exact Hall].
      cbn [fst snd length]. rewrite length_app, length_map, Hsth.
      rewrite (@list_max_const _ (fst hw)).
      * simpl. lia.
      * destruct fmtted; simpl; congruence.
      * apply Forall_map. eapply Forall_impl; [|exact Hsz].
        now intros b [H _].
Qed.

Lemma fmt_arr_size_witness :
  exists lines,
    fmt_arr true false false [2; 3; 2]
      (repeat (lit "ab") 12) = Ok lines /\
    length lines = 7 /\
    Forall (fun l => length l = 16) lines.
Proof.
  destruct (@fmt_arr_size true false false 2 [2; 3; 2]
              (repeat (lit "ab") 12))
    as (lines & Hok & Hh & Hw).
  - repeat constructor.
  - reflexivity.
  - apply Forall_forall. intros e He. apply repeat_spec in He.
    now subst.
  - exists lines. auto.
Defined.

Lemma concat_singletons {A B} (f : A -> B) (l : list A) :
  concat (map (fun x => [f x]) l) = map f l.
Proof.
  induction l as [|x l IH]; simpl; [reflexivity | now rewrite IH].
Qed.

(** X7. A grid of two dimensions whose rows are not boxed (brackets are
    on, or [box_inner_1D] is off) is rendered as a solid box with one
    line per row, in order: the entries of the row joined by single
    spaces, between square brackets when brackets are on.  Only the number
    of rows has to be positive; rows without entries give empty lines. *)
Theorem fmt_arr_2d_rows (dot_odds bracket_inner_1D box_inner_1D : bool)
  (r c w : nat) (entries : list str) :
  bracket_inner_1D || negb box_inner_1D = true ->
  0 < r ->
  length entries = size_of [r; c] ->
  Forall (fun e => length e = w) entries ->
  let row_line := fun row : list str =>
    if bracket_inner_1D
    then lit "[" ++ join [space] row ++ lit "]"
    else join [space] row in
  let W := c * w + (c - 1) + (if bracket_inner_1D then 2 else 0) in
  fmt_arr dot_odds bracket_inner_1D box_inner_1D [r; c] entries
  = Ok (top_border false W
          :: map (fun row => bordered false (row_line row))
                 (subarrays r [c] entries)
          ++ [bottom_border false W]).
Proof.
  intros Hflags Hr Hlen Hw row_line W.
  rewrite fmt_arr_recursive by discriminate.
  rewrite (@rmap_ext_ok _ _ _ (fun row => [row_line row])).
  2:{ apply Forall_forall. intros row _. unfold row_line.
      destruct bracket_inner_1D; [reflexivity|].
      destruct box_inner_1D; [discriminate | reflexivity]. }
  cbn [rbind length Nat.even].
  assert (Hrows : Forall (fun l => length l = W)
                         (map row_line (subarrays r [c] entries))).
  { apply Forall_map.
    pose proof (subarrays_sizes r [c] entries Hlen) as Hsizes.
    pose proof (chunks_forall (size_of [c]) r Hw) as Hws.
    fold (subarrays r [c] entries) in Hws.
    rewrite Forall_forall in Hsizes, Hws |- *. intros row Hrow.
    specialize (Hsizes row Hrow). specialize (Hws row Hrow).
    simpl in Hsizes. rewrite Nat.mul_1_r in Hsizes.
    unfold row_line, W. destruct bracket_inner_1D.
    - rewrite !length_app, (join_row_length Hws).
      unfold str, char in *. rewrite Hsizes. simpl. lia.
    - rewrite (join_row_length Hws).
      unfold str, char in *. rewrite Hsizes. lia. }
  assert (Hne : map row_line (subarrays r [c] entries) <> []).
  { unfold subarrays. destruct r; [lia | discriminate]. }
  rewrite (@vstack_equal_width W);
    rewrite ?concat_singletons; auto.
  2:{ apply Forall_map, Forall_forall. intros row Hrow.
      constructor; [|constructor].
      rewrite Forall_forall in Hrows. apply Hrows.
      now apply in_map. }
  cbn [rbind].
  assert (Hblock : block_of_width W
                     (map row_line (subarrays r [c] entries)))
    by (split; assumption).
  etransitivity; [exact (proj1 (box_of_block false Hblock))|].
  now rewrite map_map.
Qed.

Lemma fmt_arr_2d_rows_witness :
  fmt_arr true false false [2; 3]
    [lit "-1"; lit " 0"; lit "12"; lit " 5"; lit " 6"; lit " 7"]
  = Ok [top_border false 8;
        bordered false (lit "-1  0 12");
        bordered false (lit " 5  6  7");
        bottom_border false 8].
Proof.
  apply (@fmt_arr_2d_rows true false false 2 3 2
           [lit "-1"; lit " 0"; lit "12"; lit " 5"; lit " 6"; lit " 7"]).
  - reflexivity.
  - lia.
  - reflexivity.
  - repeat constructor.
Defined.

(** ** Depth parity *)

Lemma box_ok_length (lines out : list str) (dotted : bool) :
  box lines dotted = Ok out -> length out = length lines + 2.
Proof.
  unfold box. destruct (py_max _) as [w|e]; cbn [rbind]; [|discriminate].
  intros H. injection H as <-. simpl.
  rewrite length_app, length_map. simpl. lia.
Qed.

(** the height of a rendering depends on the shape and the options only *)
Lemma fmt_arr_height (dot_odds bracket_inner_1D box_inner_1D : bool)
  (sh : list nat) :
  forall entries lines,
    fmt_arr dot_odds bracket_inner_1D box_inner_1D sh entries = Ok lines ->
    length lines = fst (block_size bracket_inner_1D box_inner_1D 0 sh).
Proof.
  induction sh as [|d rest IH]; intros entries lines H.
  - destruct entries as [|x [|y l]]; simpl in H; try discriminate.
    injection H as <-. reflexivity.
  - cbn [fmt_arr] in H. cbn [block_size].
    destruct (bracket_inner_1D && _); [injection H as <-; reflexivity|].
    destruct (negb box_inner_1D && _); [injection H as <-; reflexivity|].
    destruct (rmap _ _) as [fmtted|] eqn:Hf; cbn [rbind] in H;
      [|discriminate].
    set (h' := fst (block_size bracket_inner_1D box_inner_1D 0 rest)) in *.
    assert (Hh : Forall (fun b => length b = h') fmtted).
    { apply rmap_forall2 in Hf. clear - Hf IH.
      induction Hf as [|c b cs bs Hc _ IHf]; constructor; eauto. }
    assert (Hcount : length fmtted = d).
    { apply rmap_forall2, Forall2_length in Hf. unfold subarrays in Hf.
      rewrite chunks_length in Hf. auto. }
    destruct (Nat.even _).
    + destruct (vstack fmtted) as [st|] eqn:Hv; cbn [rbind] in H;
        [|discriminate].
      apply box_ok_length in H. rewrite H.
      unfold vstack in Hv.
      destruct (py_max _); cbn [rbind] in Hv; [|discriminate].
      injection Hv as <-. rewrite length_map, length_concat_sum.
      rewrite (@list_sum_const h') by now apply Forall_map.
      rewrite length_map, Hcount. reflexivity.
    + destruct (hstack fmtted 0) as [st|] eqn:Hs; cbn [rbind] in H;
        [|discriminate].
      apply box_ok_length in H. rewrite H.
      destruct (hstack_cases fmtted 0)
        as [[_ Hr]|[(_ & _ & Hr)|(Hne & Hnin & _)]]; try congruence.
      destruct (@hstack_height fmtted 0 Hne) as (out & Hout & Hlen & _).
      { apply Forall_forall. intros b Hb ->. contradiction. }
      rewrite Hs in Hout. injection Hout as <-. rewrite Hlen.
      rewrite (@list_max_const _ h');
        [reflexivity
        | destruct fmtted; simpl; congruence
        | now apply Forall_map].
Qed.

(** C3. Depth parity: a grid of [N >= 2] dimensions is rendered by
    rendering its sub-grids and then, when [N] is even, stacking the
    sub-blocks vertically inside a solid box, and when [N] is odd,
    stacking them horizontally (no spacing) inside a box that is dashed
    exactly when [dot_odds] is set; parity being exclusive, each direction
    of the two equivalences is one of the two cases.  On a non-empty grid
    every step returns: the [d] sub-grids give [d] sub-blocks, all of one
    height [h].  For even [N] the content of the box is the lines of all
    the sub-blocks, piled up in order and padded to the widest; for odd
    [N] it is [h] lines, line [i] being the [i]-th lines of the sub-blocks
    put side by side with nothing in between. *)
Theorem fmt_arr_depth_parity
  (dot_odds bracket_inner_1D box_inner_1D : bool)
  (d : nat) (rest : list nat) (entries : list str) :
  rest <> [] ->
  let render := fmt_arr dot_odds bracket_inner_1D box_inner_1D in
  let N := length (d :: rest) in
  (Nat.even N = true ->
     render (d :: rest) entries =
       (fmtted <- rmap (render rest) (subarrays d rest entries) ;;
        st <- vstack fmtted ;; box st false)%res) /\
  (Nat.even N = false ->
     render (d :: rest) entries =
       (fmtted <- rmap (render rest) (subarrays d rest entries) ;;
        st <- hstack fmtted 0 ;; box st dot_odds)%res) /\
  (nonempty_shape (d :: rest) ->
   length entries = size_of (d :: rest) ->
   exists (blocks : list (list str)) (h : nat),
     Forall2 (fun sub b => render rest sub = Ok b)
             (subarrays d rest entries) blocks /\
     length blocks = d /\
     0 < h /\
     Forall (fun b => length b = h) blocks /\
     (Nat.even N = true ->
        let piled := concat blocks in
        let w := list_max (map (@length char) piled) in
        render (d :: rest) entries =
          Ok (top_border false w
                :: map (fun l => bordered false (ljust l w)) piled
                ++ [bottom_border false w])) /\
     (Nat.even N = false ->
        let side_by_side :=
          map (fun i => concat (map (fun b => nth i b []) blocks))
              (seq 0 h) in
        let w := list_max (map (@length char) side_by_side) in
        render (d :: rest) entries =
          Ok (top_border dot_odds w
                :: map (fun l => bordered dot_odds (ljust l w))
                       side_by_side
                ++ [bottom_border dot_odds w]))).
Proof.
  intros Hrest render N.
  pose proof (fmt_arr_recursive dot_odds bracket_inner_1D box_inner_1D
                d entries Hrest) as Hrec.
  fold render in Hrec. fold N in Hrec.
  split; [intros Hpar; now rewrite Hpar in Hrec|].
  split; [intros Hpar; now rewrite Hpar in Hrec|].
  intros Hpos Hlen.
  inversion Hpos as [|? ? Hd Hpos']; subst.
  destruct (@rmap_ok _ _ (render rest) (fun b => b <> [])
              (subarrays d rest entries)) as (blocks & Hf & Hne & Hcount).
  { eapply Forall_impl; [|apply subarrays_sizes; exact Hlen].
    intros c Hc.
    destruct (fmt_arr_block dot_odds bracket_inner_1D box_inner_1D
                c Hpos' Hc) as (b & w & Hb & Hb1 & _).
    eauto. }
  unfold subarrays in Hcount. rewrite chunks_length in Hcount.
  rewrite Hf in Hrec. cbn [rbind] in Hrec.
  set (h := fst (block_size bracket_inner_1D box_inner_1D 0 rest)).
  assert (Hh : Forall (fun b => length b = h) blocks).
  { pose proof (rmap_forall2 _ _ Hf) as Hsub. clear - Hsub.
    induction Hsub as [|c b cs bs Hc _ IH]; constructor; auto.
    exact (fmt_arr_height _ _ _ _ _ Hc). }
  destruct blocks as [|b blocks]; [simpl in Hcount; lia|].
  assert (Hblocks : b :: blocks <> []) by discriminate.
  assert (Hhpos : 0 < h).
  { inversion Hne as [|? ? Hb _]; subst. inversion Hh as [|? ? Hbh _].
    subst. destruct b; [congruence | simpl in *; lia]. }
  exists (b :: blocks), h.
  split; [now apply rmap_forall2|]. split; [exact Hcount|].
  split; [exact Hhpos|]. split; [exact Hh|].
  split; intros Hpar; rewrite Hpar in Hrec; cbv zeta; rewrite Hrec.
  - destruct (@vstack_block (b :: blocks)) as [Hv Hv1].
    { inversion Hne as [|? ? Hb _]; subst. simpl.
      destruct b; [congruence | discriminate]. }
    rewrite Hv. cbn [rbind].
    rewrite (proj1 (box_of_block false Hv1)). now rewrite map_map.
  - rewrite (@hstack_lines (b :: blocks) 0 Hblocks Hne). cbn [rbind].
    assert (Hmax : list_max (map (@length str) (b :: blocks)) = h).
    { apply list_max_const; [discriminate | now apply Forall_map]. }
    rewrite Hmax.
    match goal with
    | |- box ?stacked _ = _ =>
        assert (Hlines :
                  stacked
                  = map (fun i =>
                           concat (map (fun b0 : list str => nth i b0 [])
                                       (b :: blocks)))
                        (seq 0 h))
    end.
    { apply map_ext_in. intros i Hi. apply in_seq in Hi.
      change (repeat space (Z.to_nat 0)) with (@nil char).
      rewrite join_empty_sep. f_equal.
      apply map_ext_in. intros b0 Hb0. apply nth_indep.
      rewrite Forall_forall in Hh. rewrite (Hh b0 Hb0). lia. }
    rewrite Hlines. apply box_eq.
    destruct h; [lia | discriminate].
Qed.

Lemma fmt_arr_depth_parity_witness :
  exists (blocks : list (list str)) (h : nat),
    Forall2 (fun sub b => fmt_arr true false false [3] sub = Ok b)
            (subarrays 2 [3]
               [lit "-1"; lit " 0"; lit "12"; lit " 5"; lit " 6"; lit " 7"])
            blocks /\
    length blocks = 2 /\
    0 < h /\
    Forall (fun b => length b = h) blocks /\
    (Nat.even 2 = true ->
     fmt_arr true false false [2; 3]
       [lit "-1"; lit " 0"; lit "12"; lit " 5"; lit " 6"; lit " 7"]
     = Ok (top_border false
             (list_max (map (@length char) (concat blocks)))
             :: map (fun l =>
                       bordered false
                         (ljust l (list_max (map (@length char)
                                                 (concat blocks)))))
                    (concat blocks)
             ++ [bottom_border false
                   (list_max (map (@length char) (concat blocks)))])).
Proof.
  destruct (@fmt_arr_depth_parity true false false 2 [3]
              [lit "-1"; lit " 0"; lit "12"; lit " 5"; lit " 6"; lit " 7"])
    as (_ & _ & Hfull).
  - discriminate.
  - destruct Hfull as (blocks & h & Hsub & Hcount & Hpos & Hh & Heven & _).
    + repeat constructor.
    + reflexivity.
    + exists blocks, h. auto.
Defined.


(** ** What a match is made of *)

Lemma match_star_split (k : Re.cset) (s : str) :
  forall m r, In (m, r) (Re.match_star k s) -> s = m ++ r.
Proof.
  induction s as [|c s IH]; intros m r Hin; simpl in Hin.
  - destruct Hin as [H|[]]. now injection H as <- <-.
  - destruct (Re.cset_mem c k).
    + apply in_app_or in Hin. destruct Hin as [Hin|[H|[]]].
      * apply in_map_iff in Hin. destruct Hin as ([m' r'] & Heq & Hin).
        unfold Re.cons_fst in Heq. simpl in Heq. injection Heq as <- <-.
        simpl. f_equal. now apply IH.
      * now injection H as <- <-.
    + destruct Hin as [H|[]]. now injection H as <- <-.
Qed.

Lemma match_atom_split (a : Re.atom) (s m r : str) :
  In (m, r) (Re.match_atom a s) -> s = m ++ r.
Proof.
  destruct a as [k q]. unfold Re.match_atom. cbn [Re.at_quant Re.at_set].
  destruct q.
  - destruct s as [|c s]; [intros []|].
    destruct (Re.cset_mem c k); [|intros []].
    intros [H|[]]. now injection H as <- <-.
  - destruct s as [|c s].
    + intros [H|[]]. now injection H as <- <-.
    + destruct (Re.cset_mem c k).
      * intros [H|[H|[]]]; now injection H as <- <-.
      * intros [H|[]]. now injection H as <- <-.
  - destruct s as [|c s]; apply match_star_split.
  - destruct s as [|c s]; [intros []|].
    destruct (Re.cset_mem c k); [|intros []].
    intros Hin. apply in_map_iff in Hin.
    destruct Hin as ([m' r'] & Heq & Hin).
    unfold Re.cons_fst in Heq. simpl in Heq. injection Heq as <- <-.
    simpl. f_equal. eapply match_star_split; eauto.
Qed.

Lemma match_atoms_split (l : list Re.atom) :
  forall s m r, In (m, r) (Re.match_atoms l s) -> s = m ++ r.
Proof.
  induction l as [|a l IH]; intros s m r Hin; simpl in Hin.
  - destruct Hin as [H|[]]. now injection H as <- <-.
  - apply in_flat_map in Hin. destruct Hin as ([m1 r1] & H1 & Hin).
    apply in_map_iff in Hin. destruct Hin as ([m2 r2] & Heq & H2).
    simpl in Heq. injection Heq as <- <-.
    apply match_atom_split in H1. apply IH in H2. simpl in H2.
    subst. now rewrite app_assoc.
Qed.

Lemma match_groups_split (p : Re.pattern) :
  forall s caps r,
    In (caps, r) (Re.match_groups p s) ->
    s = concat (none_to_empty caps) ++ r.
Proof.
  induction p as [|g p IH]; intros s caps r Hin; simpl in Hin.
  - destruct Hin as [H|[]]. now injection H as <- <-.
  - apply in_app_or in Hin. destruct Hin as [Hin|Hin].
    + apply in_flat_map in Hin. destruct Hin as ([m1 r1] & H1 & Hin).
      apply in_map_iff in Hin. destruct Hin as ([caps' r2] & Heq & H2).
      simpl in Heq. injection Heq as <- <-.
      apply match_atoms_split in H1. apply IH in H2. simpl in H2.
      subst. simpl. now rewrite app_assoc.
    + destruct (Re.optional g); [|destruct Hin].
      apply in_map_iff in Hin. destruct Hin as ([caps' r2] & Heq & H2).
      simpl in Heq. injection Heq as <- <-.
      apply IH in H2. exact H2.
Qed.

Lemma search_position (p : Re.pattern) (s : str)
  (g : list (option str)) :
  Re.search p s = Some g ->
  exists pre s' r, s = pre ++ s' /\ In (g, r) (Re.match_groups p s').
Proof.
  induction s as [|c s IH]; simpl.
  - destruct (Re.match_groups p []) as [|[caps r] ms] eqn:Hm;
      [discriminate|].
    intros H. injection H as <-. exists [], [], r. rewrite Hm.
    split; [reflexivity | now left].
  - destruct (Re.match_groups p (c :: s)) as [|[caps r] ms] eqn:Hm.
    + intros H. destruct (IH H) as (pre & s' & r & -> & Hin).
      exists (c :: pre), s', r. auto.
    + intros H. injection H as <-. exists [], (c :: s), r. rewrite Hm.
      split; [reflexivity | now left].
Qed.

(** X8. What [re.search] captures is in the text: the groups of a match,
    one after the other (a group left out counting as empty), are a
    stretch of consecutive characters of the searched text, and there are
    as many groups as the pattern has. *)
Theorem search_captures_in_text (p : Re.pattern) (s : str)
  (g : list (option str)) :
  Re.search p s = Some g ->
  length g = length p /\
  exists pre post, s = pre ++ concat (none_to_empty g) ++ post.
Proof.
  intros H. split; [eapply search_arity; eauto|].
  destruct (search_position _ _ H) as (pre & s' & r & -> & Hin).
  apply match_groups_split in Hin. exists pre, r. now rewrite Hin.
Qed.

Lemma search_captures_in_text_witness :
  length [Some (lit "-2."); Some (lit "25"); @None str] = 3 /\
  exists pre post,
    lit "x=-2.25;" = pre ++ concat (none_to_empty
                       [Some (lit "-2."); Some (lit "25"); None]) ++ post.
Proof.
  apply (@search_captures_in_text Re.pat_floating (lit "x=-2.25;")).
  reflexivity.
Defined.

(** ** Padding adds spaces and nothing else *)

Lemma strip_app (a b : str) :
  strip_spaces (a ++ b) = strip_spaces a ++ strip_spaces b.
Proof. apply filter_app. Qed.

Lemma strip_blank (n : nat) : strip_spaces (repeat space n) = [].
Proof. induction n as [|n IH]; simpl; auto. Qed.

Lemma strip_just (j : bool) (part : str) (ml : nat) :
  strip_spaces (if j then ljust part ml else rjust part ml)
  = strip_spaces part.
Proof.
  destruct j; unfold ljust, rjust; rewrite strip_app, strip_blank.
  - apply app_nil_r.
  - reflexivity.
Qed.

Lemma fmt_entry_strip (parts : list str) :
  forall maxlens lj,
    length maxlens = length parts ->
    length lj = length parts ->
    strip_spaces (fmt_entry parts maxlens lj)
    = strip_spaces (concat parts).
Proof.
  induction parts as [|part parts IH]; intros maxlens lj Hm Hl.
  - destruct maxlens, lj; reflexivity.
  - destruct maxlens as [|ml maxlens]; [discriminate|].
    destruct lj as [|j lj]; [discriminate|].
    simpl in *. rewrite !strip_app, strip_just, IH by lia. reflexivity.
Qed.

(** X9. The entry formatter only pads.  Every entry it returns is made of
    what the search of the dtype's pattern captured in the text the
    collaborator gave for that entry: the captured parts, in order, are a
    stretch of consecutive characters of the text, and the entry with its
    spaces taken out is that stretch with its spaces taken out, nothing
    added and nothing reordered. *)
Theorem fmt_entries_only_pads (scalar : Type)
  (array2string : scalar -> Z -> result str) (prec : Z)
  (arr : ndarray scalar) (t t' : trace scalar) (res : ndarray str) :
  fmt_entries array2string prec arr t = (Ok res, t') ->
  exists p lj texts,
    select_pattern (dtype arr) = Ok (p, lj) /\
    answers array2string prec (flat arr) texts /\
    Forall2 (fun text e => exists g pre post,
                 Re.search p text = Some g /\
                 text = pre ++ concat (none_to_empty g) ++ post /\
                 strip_spaces e
                 = strip_spaces (concat (none_to_empty g)))
            texts (flat res).
Proof.
  intros H.
  destruct (fmt_entries_ok_inv _ _ _ _ H) as (texts & Hans & Halign & _).
  destruct (align_texts_inv _ _ _ Halign)
    as (p & lj & rg & maxlens & Hsel & Hsearch & _ & _ & Hflat & Hmax).
  pose proof (select_pattern_flags _ Hsel) as Hlj.
  exists p, lj, texts. split; [exact Hsel|]. split; [exact Hans|].
  rewrite Hflat.
  destruct rg as [|g0 rg0] eqn:Erg.
  { inversion Hsearch. constructor. }
  destruct Hmax as [Hlen _]; [discriminate|].
  rewrite <- Erg in *. clear Erg g0 rg0 Halign Hflat Hans H.
  induction Hsearch as [|s g texts rg Hs _ IH]; simpl;
    [constructor|].
  constructor; [|exact IH].
  destruct (search_position _ _ Hs) as (pre & s' & r & Heq & Hin).
  pose proof (search_arity _ _ Hs) as Harity.
  apply match_groups_split in Hin.
  exists g, pre, r. split; [exact Hs|]. split.
  - now rewrite Heq, Hin.
  - apply fmt_entry_strip; rewrite none_to_empty_length; congruence.
Qed.


Lemma fmt_entries_only_pads_witness :
  exists p lj texts,
    select_pattern float64 = Ok (p, lj) /\
    answers given_float_text 4 [lit "x=1.5"; lit "-2.25"] texts /\
    Forall2 (fun text e => exists g pre post,
                 Re.search p text = Some g /\
                 text = pre ++ concat (none_to_empty g) ++ post /\
                 strip_spaces e
                 = strip_spaces (concat (none_to_empty g)))
            texts [lit " 1.5 "; lit "-2.25"].
Proof.
  apply (@fmt_entries_only_pads str given_float_text 4
           (mk_ndarray float64 [2] [lit "x=1.5"; lit "-2.25"]) []
           [Array2String (lit "x=1.5") 4; Array2String (lit "-2.25") 4]
           (mk_ndarray str_ [2] [lit " 1.5 "; lit "-2.25"])).
  reflexivity.
Defined.


(** ** Texts without a digit *)

Lemma has_digit_app (a b : str) :
  has_digit (a ++ b) = has_digit a || has_digit b.
Proof. apply existsb_app. Qed.

Lemma match_digits_has_digit (l1 l2 : list Re.atom) :
  forall s m r,
    In (m, r)
       (Re.match_atoms (l1 ++ Re.mk_atom Re.digit Re.Plus :: l2) s) ->
    has_digit m = true.
Proof.
  induction l1 as [|a l1 IH]; intros s m r Hin;
    cbn [app] in Hin; rewrite match_atoms_cons in Hin;
    apply in_flat_map in Hin; destruct Hin as ([m1 r1] & H1 & Hin);
    apply in_map_iff in Hin; destruct Hin as ([m2 r2] & Heq & H2);
    simpl in Heq; injection Heq as <- <-; rewrite has_digit_app.
  - unfold Re.match_atom in H1. cbn [Re.at_quant Re.at_set] in H1.
    destruct s as [|c s]; [destruct H1|].
    destruct (Re.cset_mem c Re.digit) eqn:Hc; [|destruct H1].
    apply in_map_iff in H1. destruct H1 as ([m' r'] & Heq & _).
    unfold Re.cons_fst in Heq. simpl in Heq. injection Heq as <- _.
    unfold has_digit. cbn [fst existsb]. now rewrite Hc.
  - simpl in H2. rewrite (IH _ _ _ H2). apply orb_true_r.
Qed.

Lemma search_needs_digit (p : Re.pattern) (s : str)
  (g : Re.group) (gs : Re.pattern) (l1 l2 : list Re.atom) :
  p = g :: gs ->
  Re.optional g = false ->
  Re.body g = l1 ++ Re.mk_atom Re.digit Re.Plus :: l2 ->
  has_digit s = false ->
  Re.search p s = None.
Proof.
  intros -> Hopt Hbody Hno.
  destruct (Re.search (g :: gs) s) as [caps|] eqn:Hs; [|reflexivity].
  exfalso.
  destruct (search_position _ _ Hs) as (pre & s' & r & -> & Hin).
  cbn [Re.match_groups] in Hin. rewrite Hopt, app_nil_r in Hin.
  apply in_flat_map in Hin. destruct Hin as ([m1 r1] & H1 & _).
  pose proof (match_atoms_split _ _ _ _ H1) as Hsplit.
  rewrite Hbody in H1. apply match_digits_has_digit in H1.
  subst s'. rewrite !has_digit_app, H1 in Hno.
  rewrite orb_true_r in Hno. discriminate.
Qed.

Lemma selected_needs_digit (dt : np_type) (p : Re.pattern)
  (lj : list bool) (s : str) :
  select_pattern dt = Ok (p, lj) ->
  has_digit s = false ->
  Re.search p s = None.
Proof.
  unfold select_pattern. intros Hsel Hno.
  destruct (issubdtype dt integer);
    [|destruct (issubdtype dt floating);
      [|destruct (issubdtype dt complex128)]];
    try discriminate; injection Hsel as <- _.
  - eapply (@search_needs_digit _ s _ _ [Re.mk_atom Re.sign Re.Opt] []);
      eauto; reflexivity.
  - eapply (@search_needs_digit _ s _ _ [Re.mk_atom Re.sign Re.Opt]
              [Re.mk_atom Re.Any Re.Once]);
      eauto; reflexivity.
  - eapply (@search_needs_digit _ s _ _ [Re.mk_atom Re.sign Re.Opt]
              [Re.mk_atom Re.Any Re.Once]);
      eauto; reflexivity.
Qed.

Lemma rmap_raises {A B} (f : A -> result B) (l : list A) (e0 : exn) :
  (forall x e, f x = Raise e -> e = e0) ->
  (exists x, In x l /\ f x = Raise e0) ->
  rmap f l = Raise e0.
Proof.
  intros Honly (x & Hin & Hx).
  destruct (rmap f l) as [ys|e] eqn:Hr.
  - apply rmap_ok_inv in Hr. rewrite Forall_forall in Hr.
    destruct (Hr x Hin) as (y & Hy). congruence.
  - apply rmap_raise in Hr. destruct Hr as (x' & _ & Hx').
    f_equal. eapply Honly; eauto.
Qed.

Lemma search_groups_raise (p : Re.pattern) (s : str) (e : exn) :
  search_groups p s = Raise e -> e = AttributeError.
Proof.
  unfold search_groups. destruct (Re.search p s); [discriminate|].
  intros H. now injection H as <-.
Qed.

(** X10. A text without any digit (nan, inf) has no match for any of the
    three patterns.  So a grid of a supported dtype for which the
    collaborator answers every entry, one of them with such a text, makes
    [parr] end in [AttributeError] (the call of [groups] on the [None] of
    the failed search), after all the collaborator calls and with nothing
    written. *)
Theorem parr_text_without_digit (scalar : Type)
  (array2string : scalar -> Z -> result str) (arr : ndarray scalar)
  (o : options) (t : trace scalar) (p : Re.pattern) (lj : list bool)
  (texts : list str) (s : str) :
  select_pattern (dtype arr) = Ok (p, lj) ->
  answers array2string (max_precision o) (flat arr) texts ->
  In s texts ->
  has_digit s = false ->
  parr array2string (NDArray arr) o t
  = (Raise AttributeError,
     t ++ map (fun y => Array2String y (max_precision o)) (flat arr)).
Proof.
  intros Hsel Hans Hin Hno. unfold parr, bind.
  rewrite (@fmt_entries_eq _ array2string (max_precision o) arr t texts
             Hans).
  unfold align_texts. rewrite Hsel.
  cbn [rbind fst snd].
  rewrite (@rmap_raises _ _ (search_groups p) _ AttributeError).
  - reflexivity.
  - intros s0 e. apply search_groups_raise.
  - exists s. split; [exact Hin|].
    unfold search_groups.
    now rewrite (@selected_needs_digit _ _ _ _ Hsel Hno).
Qed.


Lemma parr_text_without_digit_witness :
  parr given_float_text
       (NDArray (mk_ndarray float64 [2] [lit "1.5"; lit "nan"]))
       default_options []
  = (Raise AttributeError,
     [Array2String (lit "1.5") 4; Array2String (lit "nan") 4]).
Proof.
  apply (@parr_text_without_digit str given_float_text
           (mk_ndarray float64 [2] [lit "1.5"; lit "nan"])
           default_options [] Re.pat_floating [false; true; true]
           [lit "1.5"; lit "nan"] (lit "nan")).
  - reflexivity.
  - repeat constructor.
  - simpl. auto.
  - reflexivity.
Defined.


(** ** Integer grids *)

Lemma select_pattern_integer (dt : np_type) :
  kind_of dt = KInteger ->
  select_pattern dt = Ok (Re.pat_integer, [false]).
Proof. destruct dt; vm_compute; congruence. Qed.

Lemma search_at_suffix (p : Re.pattern) (pre s : str) :
  Re.match_groups p s <> [] -> Re.search p (pre ++ s) <> None.
Proof.
  intros Hne. induction pre as [|c pre IH]; cbn [app].
  - destruct s as [|c s]; cbn [Re.search];
      destruct (Re.match_groups p _); congruence.
  - cbn [Re.search]. destruct (Re.match_groups p (c :: pre ++ s));
      [exact IH | discriminate].
Qed.

Lemma match_integer_at_digit (d : char) (rest : str) :
  Re.cset_mem d Re.digit = true ->
  Re.match_groups Re.pat_integer (d :: rest) <> [].
Proof.
  intros Hd.
  destruct (Re.match_star Re.digit rest) as [|[m r] tl] eqn:Hstar;
    [now apply match_star_nonempty in Hstar|].
  unfold Re.pat_integer. cbn [Re.match_groups Re.body Re.optional].
  rewrite match_atoms_cons, match_atom_opt, (@digit_not_sign d Hd).
  cbn [flat_map fst snd].
  rewrite match_atoms_cons, (@match_atom_plus Re.digit d rest Hd), Hstar.
  cbn [map flat_map Re.cons_fst fst snd Re.match_atoms app].
  discriminate.
Qed.

Lemma has_digit_split (s : str) :
  has_digit s = true ->
  exists pre d rest, s = pre ++ d :: rest /\ Re.cset_mem d Re.digit = true.
Proof.
  unfold has_digit. intros H. apply existsb_exists in H.
  destruct H as (d & Hin & Hd). apply in_split in Hin.
  destruct Hin as (pre & rest & ->). eauto.
Qed.

Lemma search_integer_iff (s : str) :
  Re.search Re.pat_integer s <> None <-> has_digit s = true.
Proof.
  split.
  - intros H. destruct (has_digit s) eqn:Hd; [reflexivity|].
    exfalso. apply H.
    now apply (@selected_needs_digit int64 Re.pat_integer [false] s).
  - intros H. destruct (has_digit_split _ H) as (pre & d & rest & -> & Hd).
    apply search_at_suffix. now apply match_integer_at_digit.
Qed.

(** X11. An integer grid whose entries the collaborator answers is
    formatted exactly when every text it gives has a digit somewhere: the
    integer pattern is searched for, not matched against the whole text,
    so anything around the first run of digits is passed over. *)
Theorem integer_grid_returns (scalar : Type)
  (array2string : scalar -> Z -> result str) (prec : Z)
  (arr : ndarray scalar) (t : trace scalar) (texts : list str) :
  kind_of (dtype arr) = KInteger ->
  wf_array arr ->
  answers array2string prec (flat arr) texts ->
  ((exists res, fmt_entries array2string prec arr t
                = (Ok res,
                   t ++ map (fun x => Array2String x prec) (flat arr)))
   <-> Forall (fun s => has_digit s = true) texts).
Proof.
  intros Hkind Hwf Hans.
  pose proof (select_pattern_integer _ Hkind) as Hsel. split.
  - intros (res & H).
    rewrite (@fmt_entries_eq _ array2string prec arr t texts Hans) in H.
    injection H as Halign.
    destruct (align_texts_inv _ _ _ Halign)
      as (p & lj & rg & maxlens & Hsel' & Hsearch & _).
    rewrite Hsel in Hsel'. injection Hsel' as <- <-.
    clear - Hsearch.
    induction Hsearch as [|x g xs rg Hx _ IH]; constructor; auto.
    apply search_integer_iff. congruence.
  - intros Hall.
    apply (@fmt_entries_returns _ array2string prec arr t
             Re.pat_integer [false] texts Hwf Hsel Hans).
    eapply Forall_impl; [|exact Hall].
    intros x Hx. now apply search_integer_iff.
Qed.


Lemma integer_grid_returns_witness :
  exists res,
    fmt_entries given_text 4
      (mk_ndarray int64 [2] [lit "5 days"; lit "n=12"]) []
    = (Ok res,
       [] ++ map (fun x => Array2String x 4) [lit "5 days"; lit "n=12"]).
Proof.
  apply (proj2 (@integer_grid_returns str given_text 4
                  (mk_ndarray int64 [2] [lit "5 days"; lit "n=12"]) []
                  [lit "5 days"; lit "n=12"] eq_refl eq_refl
                  ltac:(repeat constructor))).
  repeat constructor.
Defined.


Lemma match_star_all (k : Re.cset) (ds : str) :
  Forall (fun d => Re.cset_mem d k = true) ds ->
  exists tl, Re.match_star k ds = (ds, []) :: tl.
Proof.
  induction 1 as [|d ds Hd _ [tl IH]]; simpl.
  - eauto.
  - rewrite Hd, IH. simpl. eauto.
Qed.

Lemma match_signed_digits (sgn ds : str) :
  sgn = [] \/ sgn = lit "+" \/ sgn = lit "-" ->
  ds <> [] ->
  Forall (fun d => Re.cset_mem d Re.digit = true) ds ->
  exists tl,
    Re.match_atoms [Re.mk_atom Re.sign Re.Opt; Re.mk_atom Re.digit Re.Plus]
                   (sgn ++ ds)
    = (sgn ++ ds, []) :: tl.
Proof.
  intros Hsgn Hne Hds. destruct ds as [|d ds]; [congruence|].
  inversion Hds as [|? ? Hd Hds']; subst.
  destruct (@match_star_all Re.digit ds Hds') as [tl Hall].
  assert (Hdigits : exists tl',
             Re.match_atoms [Re.mk_atom Re.digit Re.Plus] (d :: ds)
             = (d :: ds, []) :: tl').
  { rewrite match_atoms_cons, (@match_atom_plus Re.digit d ds Hd), Hall.
    cbn [map flat_map Re.cons_fst fst snd Re.match_atoms app].
    rewrite app_nil_r. eauto. }
  destruct Hdigits as [tl' Hdigits].
  rewrite match_atoms_cons.
  destruct Hsgn as [->|[->| ->]].
  - cbn [app]. rewrite match_atom_opt, (@digit_not_sign d Hd).
    cbn [flat_map fst snd]. rewrite Hdigits.
    cbn [map fst snd app]. eauto.
  - change (lit "+" ++ d :: ds) with (43%N :: d :: ds).
    rewrite match_atom_opt.
    change (Re.cset_mem 43%N Re.sign) with true.
    cbn [flat_map fst snd]. rewrite Hdigits.
    cbn [map fst snd app]. eauto.
  - change (lit "-" ++ d :: ds) with (45%N :: d :: ds).
    rewrite match_atom_opt.
    change (Re.cset_mem 45%N Re.sign) with true.
    cbn [flat_map fst snd]. rewrite Hdigits.
    cbn [map fst snd app]. eauto.
Qed.

Lemma search_signed_digits (s : str) :
  signed_digits s ->
  search_groups Re.pat_integer s = Ok [Some s].
Proof.
  intros (sgn & ds & -> & Hsgn & Hne & Hds).
  destruct (@match_signed_digits sgn ds Hsgn Hne Hds) as [tl Htl].
  assert (Hm : exists ms,
             Re.match_groups Re.pat_integer (sgn ++ ds)
             = ([Some (sgn ++ ds)], []) :: ms).
  { unfold Re.pat_integer. cbn [Re.match_groups Re.body Re.optional].
    rewrite Htl. cbn [flat_map map fst snd app]. eauto. }
  destruct Hm as [ms Hm]. unfold search_groups.
  assert (Hs : Re.search Re.pat_integer (sgn ++ ds)
               = Some [Some (sgn ++ ds)]).
  { destruct (sgn ++ ds); cbn [Re.search]; now rewrite Hm. }
  now rewrite Hs.
Qed.

(** X12. An integer grid whose texts, as the collaborator gives them, are
    a sign, or none, and digits is right-justified: every entry is its
    text with spaces in front, up to the length of the longest text of the
    grid, and the shape is kept. *)
Theorem integer_grid_right_justified (scalar : Type)
  (array2string : scalar -> Z -> result str) (prec : Z)
  (arr : ndarray scalar) (t : trace scalar) (texts : list str) :
  kind_of (dtype arr) = KInteger ->
  wf_array arr ->
  answers array2string prec (flat arr) texts ->
  Forall signed_digits texts ->
  let width := list_max (map (@length char) texts) in
  exists res,
    fmt_entries array2string prec arr t
    = (Ok res, t ++ map (fun x => Array2String x prec) (flat arr)) /\
    shape res = shape arr /\
    flat res = map (fun s => rjust s width) texts.
Proof.
  intros Hkind Hwf Hans Htexts width.
  rewrite (@fmt_entries_eq _ array2string prec arr t texts Hans).
  unfold align_texts.
  rewrite (select_pattern_integer _ Hkind). cbn [rbind fst snd].
  rewrite (@rmap_ext_ok _ _ _ (fun s => [Some s]) texts).
  2:{ eapply Forall_impl; [|exact Htexts].
      intros s Hs. now apply search_signed_digits. }
  cbn [rbind]. rewrite map_map. cbn [none_to_empty map].
  match goal with
  | |- context [rmap ?f (zip_star ?d ?rows)] =>
      assert (Hmax : rmap f (zip_star d rows)
                     = Ok (match texts with [] => [] | _ => [width] end))
  end.
  { destruct texts as [|s0 texts0] eqn:Et; [reflexivity|].
    rewrite <- Et in *.
    rewrite (@zip_star_eq _ [] _ 1).
    - cbn [seq map rmap]. rewrite !map_map. cbn [nth].
      rewrite py_max_ok by (rewrite Et; discriminate).
      cbn [rbind]. unfold width. rewrite Et. reflexivity.
    - rewrite Et. discriminate.
    - apply Forall_map, Forall_forall. reflexivity. }
  rewrite Hmax. cbn [rbind]. unfold reshape.
  rewrite !length_map.
  assert (Hlen : length texts = length (flat arr)).
  { symmetry. exact (Forall2_length Hans). }
  unfold wf_array in Hwf. rewrite Hlen, Hwf.
  rewrite Nat.eqb_refl. eexists. split; [reflexivity|].
  cbn [shape flat]. split; [reflexivity|].
  rewrite map_map.
  apply map_ext_in. intros x Hx.
  destruct texts as [|x0 xs]; [destruct Hx|].
  cbn [map fmt_entry]. apply app_nil_r.
Qed.


Lemma integer_grid_right_justified_witness :
  exists res,
    fmt_entries np_int_text 4
      (mk_ndarray int64 [3] [(-1)%Z; 0%Z; 12%Z]) []
    = (Ok res,
       [] ++ map (fun x => Array2String x 4) [(-1)%Z; 0%Z; 12%Z]) /\
    shape res = [3] /\
    flat res = map (fun s => rjust s 2) [lit "-1"; lit "0"; lit "12"].
Proof.
  apply (@integer_grid_right_justified Z np_int_text 4
           (mk_ndarray int64 [3] [(-1)%Z; 0%Z; 12%Z]) []
           [lit "-1"; lit "0"; lit "12"]).
  - reflexivity.
  - reflexivity.
  - repeat constructor.
  - repeat constructor.
    + exists (lit "-"), (lit "1"). repeat split; auto.
      * discriminate.
      * repeat constructor.
    + exists [], (lit "0"). repeat split; auto.
      * discriminate.
      * repeat constructor.
    + exists [], (lit "12"). repeat split; auto.
      * discriminate.
      * repeat constructor.
Defined.


(** ** The whole of a call *)

(** X13. The trace of a call of [parr].  Anything that is not an array is
    refused with [TypeError] before any work.  For an array the entries
    are handed to the collaborator one by one, in row-major order and with
    the precision of the options, before anything else happens.  If the
    collaborator raises on an entry, the call ends there with that
    exception: the entries up to that one were passed, each once, and
    nothing else happened.  If it answers every entry, every entry was
    passed exactly once, and then either the call fails and that is all,
    or it writes once: the lines of the rendering, at least one, joined by
    newlines and closed by a newline. *)
Theorem parr_trace (scalar : Type)
  (array2string : scalar -> Z -> result str)
  (arg : pyobj scalar) (o : options) (t : trace scalar) :
  match arg with
  | NotAnArray => parr array2string arg o t = (Raise TypeError, t)
  | NDArray arr =>
      let call := fun x => Array2String x (max_precision o) in
      (exists k x e texts,
         nth_error (flat arr) k = Some x /\
         array2string x (max_precision o) = Raise e /\
         answers array2string (max_precision o)
                 (firstn k (flat arr)) texts /\
         parr array2string arg o t
         = (Raise e, t ++ map call (firstn (S k) (flat arr)))) \/
      (exists texts,
         answers array2string (max_precision o) (flat arr) texts /\
         ((exists e,
             parr array2string arg o t
             = (Raise e, t ++ map call (flat arr))) \/
          (exists lines,
             lines <> [] /\
             parr array2string arg o t
             = (Ok tt,
                t ++ map call (flat arr)
                  ++ [StdoutWrite (join [newline] lines ++ [newline])]))))
  end.
Proof.
  destruct arg as [|arr]; [reflexivity|].
  cbv zeta. unfold parr, bind.
  destruct (fmt_entries array2string (max_precision o) arr t)
    as [r t1] eqn:Hf.
  destruct (fmt_entries_trace _ _ _ _ Hf)
    as [(texts & Hans & -> & ->)
       |(k & x & e & texts & Hk & Hx & Hans & -> & ->)].
  - right. exists texts. split; [exact Hans|].
    destruct (align_texts _ _ _) as [entries|e]; [|left; eauto].
    unfold lift.
    destruct (fmt_arr _ _ _ _ _) as [lines|e] eqn:Hlines; [|left; eauto].
    right. exists lines. split.
    + eapply fmt_arr_ok_nonempty; eauto.
    + unfold print, emit. now rewrite <- app_assoc.
  - left. exists k, x, e, texts. auto.
Qed.


Lemma zip_star_tuples {A} (d : A) (rows : list (list A)) (g : list A) :
  In g (zip_star d rows) -> g <> [].
Proof.
  unfold zip_star. intros Hin. apply in_map_iff in Hin.
  destruct Hin as (i & <- & Hi).
  destruct rows as [|r rows]; [destruct Hi | discriminate].
Qed.

Lemma select_pattern_raise (dt : np_type) (e : exn) :
  select_pattern dt = Raise e -> e = NotImplementedError.
Proof.
  unfold select_pattern.
  destruct (issubdtype dt integer);
    [|destruct (issubdtype dt floating);
      [|destruct (issubdtype dt complex128)]];
    intros H; try discriminate. now injection H as <-.
Qed.

Lemma align_texts_raise (dt : np_type) (sh : list nat)
  (texts : list str) (e : exn) :
  align_texts dt sh texts = Raise e ->
  length texts = size_of sh ->
  (e = NotImplementedError /\
   select_pattern dt = Raise NotImplementedError) \/
  (e = AttributeError /\
   exists p lj s,
     select_pattern dt = Ok (p, lj) /\ In s texts /\
     Re.search p s = None).
Proof.
  unfold align_texts. intros H Hsize.
  destruct (select_pattern dt) as [[p lj]|e0] eqn:Hsel; cbn [rbind] in H.
  2:{ injection H as <-. left.
      pose proof (select_pattern_raise _ Hsel) as ->. auto. }
  cbn [fst snd] in H. right.
  destruct (rmap (search_groups p) texts) as [rg|e1] eqn:Hrg;
    cbn [rbind] in H.
  - exfalso.
    destruct (rmap _ (zip_star [] (map none_to_empty rg)))
      as [maxlens|e2] eqn:Hmax; cbn [rbind] in H.
    + unfold reshape in H. rewrite !length_map in H.
      apply rmap_forall2, Forall2_length in Hrg.
      rewrite <- Hrg, Hsize, Nat.eqb_refl in H. discriminate.
    + apply rmap_raise in Hmax. destruct Hmax as (g & Hg & Hraise).
      apply zip_star_tuples in Hg. apply py_max_raise in Hraise.
      destruct Hraise as [Hnil _]. destruct g; [congruence|discriminate].
  - injection H as <-. apply rmap_raise in Hrg.
    destruct Hrg as (s & Hs & Hraise).
    pose proof (search_groups_raise _ _ Hraise) as ->.
    split; [reflexivity|]. exists p, lj, s. repeat split; auto.
    unfold search_groups in Hraise.
    destruct (Re.search p s); [discriminate | reflexivity].
Qed.

Lemma fmt_arr_raise_zero (dot_odds bracket_inner_1D box_inner_1D : bool)
  (sh : list nat) (entries : list str) (e : exn) :
  fmt_arr dot_odds bracket_inner_1D box_inner_1D sh entries = Raise e ->
  length entries = size_of sh ->
  In 0 sh.
Proof.
  intros H Hlen.
  destruct (in_dec Nat.eq_dec 0 sh) as [Hin|Hnin]; [exact Hin|].
  exfalso.
  assert (Hpos : nonempty_shape sh).
  { apply Forall_forall. intros d Hd.
    destruct d; [contradiction | lia]. }
  destruct (fmt_arr_block dot_odds bracket_inner_1D box_inner_1D
              entries Hpos Hlen) as (lines & w & Hok & _).
  congruence.
Qed.

(** X14. How a call of [parr] on an array can fail, in the order of the
    stages: with whatever the collaborator raised on one of the entries;
    or, the collaborator having answered every entry, with
    [NotImplementedError] when the dtype is not taken; with
    [AttributeError] when the dtype is taken and some entry's text has no
    match for its pattern; with [ValueError] when the grid has a dimension
    of length 0.  The code itself fails in no other way: the [IndexError]
    of the horizontal stack is out of reach. *)
Theorem parr_failures (scalar : Type)
  (array2string : scalar -> Z -> result str)
  (arr : ndarray scalar) (o : options) (t t' : trace scalar) (e : exn) :
  wf_array arr ->
  parr array2string (NDArray arr) o t = (Raise e, t') ->
  (exists x,
     In x (flat arr) /\ array2string x (max_precision o) = Raise e) \/
  (exists texts,
     answers array2string (max_precision o) (flat arr) texts /\
     ((e = NotImplementedError /\
       select_pattern (dtype arr) = Raise NotImplementedError) \/
      (e = AttributeError /\
       exists p lj s,
         select_pattern (dtype arr) = Ok (p, lj) /\ In s texts /\
         Re.search p s = None) \/
      (e = ValueError /\ In 0 (shape arr)))).
Proof.
  intros Hwf. unfold parr, bind.
  destruct (fmt_entries array2string (max_precision o) arr t)
    as [r t1] eqn:Hf.
  destruct (fmt_entries_trace _ _ _ _ Hf)
    as [(texts & Hans & -> & ->)
       |(k & x & e0 & texts & Hk & Hx & Hans & -> & ->)].
  - intros H. right. exists texts. split; [exact Hans|].
    destruct (align_texts _ _ _) as [entries|e1] eqn:Halign.
    + unfold lift in H.
      destruct (fmt_arr _ _ _ _ _) as [lines|e2] eqn:Hlines;
        [unfold print, emit in H; discriminate|].
      injection H as <- _. right. right.
      destruct (align_texts_inv _ _ _ Halign)
        as (_ & _ & _ & _ & _ & _ & Hshape & Hlen & _).
      split; [eapply fmt_arr_raise; eauto|].
      rewrite <- Hshape. rewrite <- Hshape in Hlen.
      eapply fmt_arr_raise_zero; eauto.
    + injection H as <- _.
      destruct (align_texts_raise _ _ _ Halign)
        as [[-> Hsel]|(-> & p & lj & s & Hsel & Hs & Hnone)].
      * rewrite <- (Forall2_length Hans). exact Hwf.
      * left. auto.
      * right. left. split; [reflexivity|].
        exists p, lj, s. auto.
  - intros H. injection H as <- _. left. exists x. split; [|exact Hx].
    eapply nth_error_In; eauto.
Qed.


Lemma parr_failures_witness :
  (exists x,
     In x [lit "1.5"] /\ given_float_text x (-1) = Raise ValueError) \/
  (exists texts,
     answers given_float_text (-1) [lit "1.5"] texts /\
     ((ValueError = NotImplementedError /\
       select_pattern float64 = Raise NotImplementedError) \/
      (ValueError = AttributeError /\
       exists p lj s,
         select_pattern float64 = Ok (p, lj) /\ In s texts /\
         Re.search p s = None) \/
      (ValueError = ValueError /\ In 0 [1]))).
Proof.
  apply (@parr_failures str given_float_text
           (mk_ndarray float64 [1] [lit "1.5"])
           (mk_options (-1) true false false) []
           [Array2String (lit "1.5") (-1)] ValueError).
  - reflexivity.
  - reflexivity.
Defined.


(** ** Real grids *)

Lemma last_char_at_nth (part : str) (col : nat) (entry : str) (c : char)
  (body : str) :
  last_char_at part col entry ->
  part = body ++ [c] ->
  nth_error entry col = Some c.
Proof.
  intros (pre & body' & c' & post & Hpart & -> & Hcol) Heq.
  rewrite Hpart in Heq. apply app_inj_tail in Heq.
  destruct Heq as [_ ->]. subst part.
  rewrite <- app_assoc, app_assoc.
  rewrite nth_error_app2 by (rewrite length_app; lia).
  rewrite length_app.
  replace (col - (length pre + length body')) with 0 by lia.
  reflexivity.
Qed.

(** X15. Decimal points line up.  In a real grid whose texts, as the
    collaborator gives them, are a sign or none, digits, a point and
    whatever follows, every formatted entry has the point in one and the
    same column. *)
Theorem real_grid_points_aligned (scalar : Type)
  (array2string : scalar -> Z -> result str) (prec : Z)
  (arr : ndarray scalar) (t t' : trace scalar) (res : ndarray str)
  (texts : list str) :
  kind_of (dtype arr) = KReal ->
  fmt_entries array2string prec arr t = (Ok res, t') ->
  answers array2string prec (flat arr) texts ->
  Forall digits_then_point texts ->
  exists col,
    Forall (fun e => nth_error e col = Some 46%N) (flat res).
Proof.
  intros Hkind H Hans Hall.
  rewrite (@fmt_entries_eq _ array2string prec arr t texts Hans) in H.
  injection H as Halign _.
  destruct (align_texts_inv _ _ _ Halign)
    as (p & lj & rg & maxlens & Hsel & Hsearch & _ & _ & Hflat & Hmax).
  pose proof (select_pattern_flags _ Hsel) as Hlj.
  rewrite (select_pattern_real _ Hkind) in Hsel.
  injection Hsel as <- <-.
  destruct (@aligned_column Re.pat_floating [false; true; true] rg
              maxlens _ 0 Re.g_int_point
              [Re.mk_atom Re.sign Re.Opt; Re.mk_atom Re.digit Re.Plus]
              Re.Any Hsearch)
    as (col & Hcol); auto.
  exists col. rewrite Hflat.
  revert Hall. clear - Hcol.
  induction Hcol as [|x e xs es (part & Hcap & Hat) _ IH]; intros Hall;
    constructor.
  - inversion Hall as [|? ? (sgn & ds & rest & Hx & Hsgn & Hne & Hds) _];
      subst.
    rewrite (@float_point_captured sgn ds rest Hsgn Hne Hds) in Hcap.
    injection Hcap as <-.
    apply (@last_char_at_nth _ _ _ 46%N (sgn ++ ds) Hat).
    now rewrite <- app_assoc.
  - apply IH. now inversion Hall.
Qed.


Lemma real_grid_points_aligned_witness :
  exists col,
    Forall (fun e => nth_error e col = Some 46%N)
           [lit " 1.5 "; lit "-2.25"].
Proof.
  apply (@real_grid_points_aligned str given_float_text 4
           (mk_ndarray float64 [2] [lit "1.5"; lit "-2.25"]) []
           [Array2String (lit "1.5") 4; Array2String (lit "-2.25") 4]
           (mk_ndarray str_ [2] [lit " 1.5 "; lit "-2.25"])
           [lit "1.5"; lit "-2.25"]).
  - reflexivity.
  - reflexivity.
  - repeat constructor.
  - repeat constructor.
    + exists [], (lit "1"), (lit "5"). repeat split; auto.
      * discriminate.
      * repeat constructor.
    + exists (lit "-"), (lit "2"), (lit "25"). repeat split; auto.
      * discriminate.
      * repeat constructor.
Defined.


(** ** Complex grids *)

(** the first match of a pattern goes through the first way to match its
    first group, when the rest of the pattern can go on from there *)
Lemma first_group (g : Re.group) (gs : Re.pattern) (s m r : str)
  (tl : list (str * str)) (caps : list (option str)) (r' : str) :
  Re.match_atoms (Re.body g) s = (m, r) :: tl ->
  hd_error (Re.match_groups gs r) = Some (caps, r') ->
  hd_error (Re.match_groups (g :: gs) s) = Some (Some m :: caps, r').
Proof.
  intros Hm Hgs. cbn [Re.match_groups]. rewrite Hm. cbn [flat_map fst snd].
  destruct (Re.match_groups gs r) as [|[c0 r0] ms]; [discriminate|].
  simpl in Hgs. injection Hgs as -> ->. reflexivity.
Qed.

(** an optional group that cannot match is left out *)
Lemma first_skip (g : Re.group) (gs : Re.pattern) (s : str)
  (caps : list (option str)) (r' : str) :
  Re.optional g = true ->
  Re.match_atoms (Re.body g) s = [] ->
  hd_error (Re.match_groups gs s) = Some (caps, r') ->
  hd_error (Re.match_groups (g :: gs) s) = Some (None :: caps, r').
Proof.
  intros Hopt Hm Hgs. cbn [Re.match_groups]. rewrite Hm, Hopt.
  cbn [flat_map app].
  destruct (Re.match_groups gs s) as [|[c0 r0] ms]; [discriminate|].
  simpl in Hgs. injection Hgs as -> ->. reflexivity.
Qed.

Lemma search_first (p : Re.pattern) (s : str) (caps : list (option str))
  (r : str) :
  hd_error (Re.match_groups p s) = Some (caps, r) ->
  Re.search p s = Some caps.
Proof.
  intros H.
  destruct (Re.match_groups p s) as [|[c0 r0] ms] eqn:Hm; [discriminate|].
  simpl in H. injection H as -> ->.
  destruct s; cbn [Re.search]; now rewrite Hm.
Qed.

Lemma match_dec (dec : str) (c : char) (rest : str) :
  Forall (fun d => Re.cset_mem d Re.digit = true) dec ->
  Re.cset_mem c Re.digit = false ->
  exists tl,
    Re.match_atoms (Re.body Re.g_dec) (dec ++ c :: rest)
    = (dec, c :: rest) :: tl.
Proof.
  intros Hd Hc.
  destruct (@match_star_run Re.digit dec c rest Hd Hc) as [tl Htl].
  cbn [Re.g_dec Re.body]. rewrite match_atoms_cons.
  unfold Re.match_atom. cbn [Re.at_quant Re.at_set]. rewrite Htl.
  cbn [flat_map Re.match_atoms map fst snd app]. rewrite app_nil_r. eauto.
Qed.

Lemma match_exp (sg : char) (eds : str) (c : char) (rest : str) :
  Re.cset_mem sg Re.sign = true ->
  eds <> [] ->
  Forall (fun d => Re.cset_mem d Re.digit = true) eds ->
  Re.cset_mem c Re.digit = false ->
  exists tl,
    Re.match_atoms (Re.body Re.g_exp) (101%N :: sg :: eds ++ c :: rest)
    = (101%N :: sg :: eds, c :: rest) :: tl.
Proof.
  intros Hsg Hne Hds Hc. destruct eds as [|d eds]; [congruence|].
  inversion Hds as [|? ? Hd Hds']; subst.
  destruct (@match_star_run Re.digit eds c rest Hds' Hc) as [tl Htl].
  cbn [Re.g_exp Re.body app].
  rewrite match_atoms_cons,
    (@match_atom_once (Re.OneOf (lit "e")) 101%N _ eq_refl).
  cbn [flat_map fst snd app].
  rewrite match_atoms_cons, (@match_atom_once Re.sign sg _ Hsg).
  cbn [flat_map fst snd app].
  rewrite match_atoms_cons, (@match_atom_plus Re.digit d _ Hd), Htl.
  cbn [map flat_map Re.cons_fst fst snd Re.match_atoms app].
  rewrite app_nil_r. eauto.
Qed.

Lemma match_exp_none (c : char) (rest : str) :
  Re.cset_mem c (Re.OneOf (lit "e")) = false ->
  Re.match_atoms (Re.body Re.g_exp) (c :: rest) = [].
Proof.
  intros Hc. cbn [Re.g_exp Re.body]. rewrite match_atoms_cons.
  unfold Re.match_atom. cbn [Re.at_quant Re.at_set]. now rewrite Hc.
Qed.

Lemma match_imag_point (sg : char) (ds rest : str) :
  Re.cset_mem sg Re.sign = true ->
  ds <> [] ->
  Forall (fun d => Re.cset_mem d Re.digit = true) ds ->
  exists tl,
    Re.match_atoms (Re.body Re.g_imag_point) (sg :: ds ++ lit "." ++ rest)
    = (sg :: ds ++ lit ".", rest) :: tl.
Proof.
  intros Hsg Hne Hds.
  destruct (@match_digits_point ds rest Hne Hds) as [tl Htl].
  cbn [Re.g_imag_point Re.body].
  rewrite match_atoms_cons, (@match_atom_once Re.sign sg _ Hsg).
  cbn [flat_map fst snd]. rewrite Htl.
  cbn [map fst snd app]. eauto.
Qed.

Lemma sign_char (sgn : str) :
  sgn = lit "+" \/ sgn = lit "-" ->
  exists sg,
    sgn = [sg] /\ Re.cset_mem sg Re.sign = true /\
    Re.cset_mem sg Re.digit = false /\
    Re.cset_mem sg (Re.OneOf (lit "e")) = false.
Proof.
  intros [->| ->]; eexists; repeat split; reflexivity.
Qed.

(** what follows a run of decimals is no digit *)
Lemma exponent_head (ex : str) (c : char) (rest : str) :
  exponent_text ex ->
  Re.cset_mem c Re.digit = false ->
  exists c0 rest0,
    ex ++ c :: rest = c0 :: rest0 /\ Re.cset_mem c0 Re.digit = false.
Proof.
  intros [->|(es & eds & -> & _)] Hc.
  - exists c, rest. auto.
  - eexists 101%N, _. split; reflexivity.
Qed.

Lemma first_decimals (gs : Re.pattern) (dec : str) (s : str)
  (c : char) (rest : str) (caps : list (option str)) (r' : str) :
  Forall (fun d => Re.cset_mem d Re.digit = true) dec ->
  s = c :: rest ->
  Re.cset_mem c Re.digit = false ->
  hd_error (Re.match_groups gs s) = Some (caps, r') ->
  hd_error (Re.match_groups (Re.g_dec :: gs) (dec ++ s))
  = Some (Some dec :: caps, r').
Proof.
  intros Hd -> Hc Hgs.
  destruct (@match_dec dec c rest Hd Hc) as [tl Htl].
  eapply first_group; eauto.
Qed.

Lemma first_exponent (gs : Re.pattern) (ex : str) (c : char) (rest : str)
  (caps : list (option str)) (r' : str) :
  exponent_text ex ->
  Re.cset_mem c Re.digit = false ->
  Re.cset_mem c (Re.OneOf (lit "e")) = false ->
  hd_error (Re.match_groups gs (c :: rest)) = Some (caps, r') ->
  exists cap,
    hd_error (Re.match_groups (Re.g_exp :: gs) (ex ++ c :: rest))
    = Some (cap :: caps, r').
Proof.
  intros [->|(es & eds & -> & Hes & Hne & Hds)] Hc He Hgs.
  - exists None.
    apply first_skip; [reflexivity | now apply match_exp_none | exact Hgs].
  - destruct (sign_char Hes) as (sg & -> & Hsg & _).
    destruct (@match_exp sg eds c rest Hsg Hne Hds Hc) as [tl Htl].
    exists (Some (101%N :: sg :: eds)).
    change ((lit "e" ++ [sg] ++ eds) ++ c :: rest)
      with (101%N :: sg :: eds ++ c :: rest).
    eapply first_group; eauto.
Qed.

(** the first match of the complex pattern in a complex text: its first
    and fourth groups are the integer parts with their points *)
Lemma complex_points_captured (s : str) :
  complex_text s ->
  exists b_re b_im,
    captured Re.pat_complex 0 s = Some (b_re ++ lit ".") /\
    captured Re.pat_complex 3 s = Some (b_im ++ lit ".").
Proof.
  intros (sgn & ds & dec & ex & sgn' & ds' & dec' & ex' & rest & -> &
          Hsgn & Hne & Hds & Hdec & Hex & Hsgn' & Hne' & Hds' & Hdec' &
          Hex').
  destruct (sign_char Hsgn') as (sg & -> & Hsg & Hsgd & Hsge).
  set (gj := Re.mk_group [Re.mk_atom (Re.OneOf (lit "j")) Re.Once] false).
  assert (H7 : hd_error (Re.match_groups [gj] (106%N :: rest))
               = Some ([Some [106%N]], rest)) by reflexivity.
  destruct (@first_exponent [gj] ex' 106%N rest _ _ Hex' eq_refl eq_refl H7)
    as (cap6 & H6).
  destruct (@exponent_head ex' 106%N rest Hex' eq_refl)
    as (c5 & rest5 & Heq5 & Hc5).
  pose proof (@first_decimals [Re.g_exp; gj] dec' _ c5 rest5 _ _
                Hdec' Heq5 Hc5 H6) as H5.
  destruct (@match_imag_point sg ds' (dec' ++ ex' ++ 106%N :: rest)
              Hsg Hne' Hds') as [tl4 Htl4].
  pose proof (@first_group Re.g_imag_point [Re.g_dec; Re.g_exp; gj]
                _ _ _ _ _ _ Htl4 H5) as H4.
  destruct (@first_exponent [Re.g_imag_point; Re.g_dec; Re.g_exp; gj]
              ex sg (ds' ++ lit "." ++ dec' ++ ex' ++ 106%N :: rest)
              _ _ Hex Hsgd Hsge H4)
    as (cap3 & H3).
  destruct (@exponent_head ex sg
              (ds' ++ lit "." ++ dec' ++ ex' ++ 106%N :: rest) Hex Hsgd)
    as (c2 & rest2 & Heq2 & Hc2).
  pose proof (@first_decimals
                [Re.g_exp; Re.g_imag_point; Re.g_dec; Re.g_exp; gj]
                dec _ c2 rest2 _ _ Hdec Heq2 Hc2 H3) as H2.
  destruct (@match_int_point sgn ds
              (dec ++ ex ++ sg :: ds' ++ lit "." ++ dec' ++ ex'
                   ++ 106%N :: rest)
              Hsgn Hne Hds) as [tl1 Htl1].
  pose proof (@first_group Re.g_int_point
                [Re.g_dec; Re.g_exp; Re.g_imag_point; Re.g_dec;
                 Re.g_exp; gj]
                _ _ _ _ _ _ Htl1 H2) as H1.
  apply search_first in H1.
  exists (sgn ++ ds), (sg :: ds').
  change ([sg] ++ ds' ++ lit "." ++ dec' ++ ex' ++ lit "j" ++ rest)
    with (sg :: ds' ++ lit "." ++ dec' ++ ex' ++ 106%N :: rest).
  unfold captured. fold gj in H1.
  change Re.pat_complex
    with [Re.g_int_point; Re.g_dec; Re.g_exp; Re.g_imag_point; Re.g_dec;
          Re.g_exp; gj].
  rewrite H1. cbn [nth_error]. rewrite <- app_assoc. auto.
Qed.

(** X17. Both decimal points of a complex grid line up.  In a complex
    grid whose texts, as the collaborator gives them, are complex numbers
    as numpy prints them, there are two columns, the second to the right
    of the first, such that every formatted entry has the point of its
    real part in the first and the point of its imaginary part in the
    second. *)
Theorem complex_grid_points_aligned (scalar : Type)
  (array2string : scalar -> Z -> result str) (prec : Z)
  (arr : ndarray scalar) (t t' : trace scalar) (res : ndarray str)
  (texts : list str) :
  kind_of (dtype arr) = KComplex ->
  fmt_entries array2string prec arr t = (Ok res, t') ->
  answers array2string prec (flat arr) texts ->
  Forall complex_text texts ->
  exists col_re col_im,
    col_re < col_im /\
    Forall (fun e => nth_error e col_re = Some 46%N /\
                     nth_error e col_im = Some 46%N)
           (flat res).
Proof.
  intros Hkind H Hans Hall.
  rewrite (@fmt_entries_eq _ array2string prec arr t texts Hans) in H.
  injection H as Halign _.
  destruct (align_texts_inv _ _ _ Halign)
    as (p & lj & rg & maxlens & Hsel & Hsearch & _ & _ & Hflat & Hmax).
  destruct (select_pattern_complex _ Hkind Hsel) as [-> ->].
  pose proof (@aligned_column_at Re.pat_complex
                [false; true; true; false; true; true; false]
                rg maxlens _ 0 Re.g_int_point
                [Re.mk_atom Re.sign Re.Opt; Re.mk_atom Re.digit Re.Plus]
                Re.Any Hsearch eq_refl Hmax eq_refl eq_refl eq_refl eq_refl)
    as Hre.
  pose proof (@aligned_column_at Re.pat_complex
                [false; true; true; false; true; true; false]
                rg maxlens _ 3 Re.g_imag_point
                [Re.mk_atom Re.sign Re.Once; Re.mk_atom Re.digit Re.Plus]
                Re.Any Hsearch eq_refl Hmax eq_refl eq_refl eq_refl eq_refl)
    as Him.
  rewrite Hflat.
  destruct Hsearch as [|s g texts0 rg0 Hs Hsearch0].
  { exists 0, 1. split; [lia | constructor]. }
  exists (list_sum (firstn 1 maxlens) - 1),
         (list_sum (firstn 4 maxlens) - 1).
  split.
  - destruct Hmax as [Hlen Hle]; [discriminate|].
    inversion Hle as [|? ? Hg _]; subst.
    inversion Hall as [|? ? Hcx _]; subst.
    destruct (complex_points_captured Hcx) as (b_re & b_im & Hc0 & Hc3).
    unfold captured in Hc0, Hc3. rewrite Hs in Hc0, Hc3.
    destruct (nth_error g 0) as [[m0|]|] eqn:Hg0; try discriminate.
    destruct (nth_error g 3) as [[m3|]|] eqn:Hg3; try discriminate.
    injection Hc0 as ->. injection Hc3 as ->.
    assert (Hn0 : nth_error (none_to_empty g) 0 = Some (b_re ++ lit "."))
      by (unfold none_to_empty; now rewrite (map_nth_error _ _ _ Hg0)).
    assert (Hn3 : nth_error (none_to_empty g) 3 = Some (b_im ++ lit "."))
      by (unfold none_to_empty; now rewrite (map_nth_error _ _ _ Hg3)).
    destruct (Forall2_nth_error 0 Hg Hn0) as (w0 & Hw0 & Hle0).
    destruct (Forall2_nth_error 3 Hg Hn3) as (w3 & Hw3 & Hle3).
    rewrite length_app in Hle0, Hle3. simpl in Hle0, Hle3.
    do 4 (destruct maxlens as [|? maxlens]; [discriminate|]).
    simpl in Hw0, Hw3. injection Hw0 as ->. injection Hw3 as ->.
    simpl. lia.
  - clear Hmax Hflat Halign Hans.
    remember (s :: texts0) as texts eqn:Et.
    remember (g :: rg0) as rg eqn:Eg.
    clear Et Eg Hs Hsearch0 s g texts0 rg0.
    remember (map (fun g => fmt_entry (none_to_empty g) maxlens
                               [false; true; true; false; true; true;
                                false]) rg) as entries eqn:Ee.
    clear Ee. revert Him Hall.
    induction Hre as [|x e xs es (part & Hcap & Hat) _ IH];
      intros Him Hall; constructor.
    + inversion Him as [|? ? ? ? (part' & Hcap' & Hat') _]; subst.
      inversion Hall as [|? ? Hcx _]; subst.
      destruct (complex_points_captured Hcx) as (b_re & b_im & Hc0 & Hc3).
      rewrite Hc0 in Hcap. rewrite Hc3 in Hcap'.
      injection Hcap as <-. injection Hcap' as <-.
      split.
      * exact (@last_char_at_nth _ _ _ 46%N b_re Hat eq_refl).
      * exact (@last_char_at_nth _ _ _ 46%N b_im Hat' eq_refl).
    + apply IH; [now inversion Him | now inversion Hall].
Qed.

Lemma complex_grid_points_aligned_witness :
  exists col_re col_im,
    col_re < col_im /\
    Forall (fun e => nth_error e col_re = Some 46%N /\
                     nth_error e col_im = Some 46%N)
           [lit "1. +2.j"; lit "1.+12.j"].
Proof.
  apply (@complex_grid_points_aligned str given_float_text 4
           (mk_ndarray complex128 [2] [lit "1.+2.j"; lit "1.+12.j"]) []
           [Array2String (lit "1.+2.j") 4; Array2String (lit "1.+12.j") 4]
           (mk_ndarray str_ [2] [lit "1. +2.j"; lit "1.+12.j"])
           [lit "1.+2.j"; lit "1.+12.j"]).
  - reflexivity.
  - reflexivity.
  - repeat constructor.
  - repeat constructor.
    + exists [], (lit "1"), [], [], (lit "+"), (lit "2"), [], [], [].
      split; [reflexivity|]. split; [auto|]. split; [discriminate|].
      split; [repeat constructor|]. split; [constructor|].
      split; [left; reflexivity|]. split; [auto|].
      split; [discriminate|]. split; [repeat constructor|].
      split; [constructor | left; reflexivity].
    + exists [], (lit "1"), [], [], (lit "+"), (lit "12"), [], [], [].
      split; [reflexivity|]. split; [auto|]. split; [discriminate|].
      split; [repeat constructor|]. split; [constructor|].
      split; [left; reflexivity|]. split; [auto|].
      split; [discriminate|]. split; [repeat constructor|].
      split; [constructor | left; reflexivity].
Defined.
